(** * taipy core: pipeline DAG validation, generation scheduling and the
      standalone job dispatcher

    A shallow embedding of
    - [taipy/core/pipeline/pipeline.py] (class [Pipeline]) and
    - [taipy/core/_orchestrator/_dispatcher/_standalone_job_dispatcher.py]
      (class [_StandaloneJobDispatcher]),
    together with the properties their specification states about them.

    Python integers are unbounded, so counters are [Z].  Dictionaries whose
    iteration order is observable (the pipeline's [_tasks], a task's
    [input]/[output]) are association lists in insertion order; the
    dispatcher's handle table, which is only looked up by key, is a [gmap]. *)

From Stdlib Require Import ZArith Lia Relations.
From stdpp Require Import gmap strings list fin_maps finite.

(** ** Entities *)

(** A data node is a placeholder for a value; this core only uses its identity. *)
Record DataNode := { dn_id : string }.

(** A task: identity, configuration identity and the two dictionaries of
    named inputs and outputs (in insertion order). *)
Record Task := {
  task_id : string;
  config_id : string;
  input : list (string * DataNode);
  output : list (string * DataNode)
}.

(** A job is one invocation of a task. *)
Record Job := { job_id : string; job_task : Task }.

Global Instance DataNode_eq_dec : EqDecision DataNode.
Proof. solve_decision. Defined.

Global Instance Task_eq_dec : EqDecision Task.
Proof. solve_decision. Defined.

Global Instance Job_eq_dec : EqDecision Job.
Proof. solve_decision. Defined.

(** Python exceptions are represented by their message; a call either
    returns a value or raises. *)
Definition Exception := string.

Inductive result (A : Type) :=
  | Ok (a : A)
  | Raise (e : Exception).
Arguments Ok {A} a.
Arguments Raise {A} e.

(** ** The standalone job dispatcher *)

Module Dispatcher.

(** The global configuration ([Config]) is an external collaborator: the
    dispatcher reads [Config.job_config.max_nb_of_workers] once and
    serializes [Config._applied_config] at every dispatch. *)
Class GlobalConfig (Config : Type) := {
  max_nb_of_workers : Config -> option Z;
  _serialize : Config -> string
}.

(** Job statuses named by the data model. *)
Inductive Status :=
  | SUBMITTED | BLOCKED | PENDING | RUNNING
  | CANCELED | FAILED | COMPLETED | SKIPPED | ABANDONED.

Record JobRecord := { status : Status; errors : list Exception }.

(** What a finished future holds: the value returned by the task function
    wrapper (the list of exceptions caught while running the task, empty on
    success), or an exception of the pool itself. *)
Inductive outcome :=
  | Returned (exceptions : list Exception)
  | Raised (e : Exception).

(** The work item handed to the executor by [submit]:
    [_TaskFunctionWrapper(job.id, job.task)] called with
    [config_as_string=...]. *)
Record ExecutionRequest := {
  req_job_id : string;
  req_task : Task;
  config_as_string : string
}.

(** The two functions that [_dispatch] registers with [add_done_callback]. *)
Inductive done_callback :=
  | release_worker_cb
  | update_job_status_from_future_cb (job : Job).

(** A [concurrent.futures.Future]: pending while [fut_result] is [None]. *)
Record Future := {
  request : ExecutionRequest;
  fut_result : option outcome;
  done_callbacks : list done_callback
}.

(** Side effects, in the order in which they are performed. *)
Inductive effect :=
  | SlotTaken
  | Submitted (handle : nat) (req : ExecutionRequest)
  | HandleRegistered (job_id : string) (handle : nat)
  | SlotReleased
  | HandleRemoved (job_id : string) (removed : option nat)
  | StatusUpdated (job_id : string) (r : JobRecord)
  | CallbackFailed (e : Exception).

Global Instance Status_eq_dec : EqDecision Status.
Proof. solve_decision. Defined.

Global Instance JobRecord_eq_dec : EqDecision JobRecord.
Proof. solve_decision. Defined.

Global Instance outcome_eq_dec : EqDecision outcome.
Proof. solve_decision. Defined.

Global Instance ExecutionRequest_eq_dec : EqDecision ExecutionRequest.
Proof. solve_decision. Defined.

Global Instance done_callback_eq_dec : EqDecision done_callback.
Proof. solve_decision. Defined.

Global Instance effect_eq_dec : EqDecision effect.
Proof. solve_decision. Defined.

(** The dispatcher together with the shared objects it reads and mutates:
    the global configuration, the executor's futures (a handle is the index
    of its future) and the job records. *)
Record Dispatcher {Config : Type} := {
  applied_config : Config;
  executor_max_workers : Z;
  executor_futures : list Future;
  _dispatched_processes : gmap string nat;
  _nb_available_workers : Z;
  jobs : gmap string JobRecord;
  effects : list effect
}.
Arguments Dispatcher : clear implicits.

Section Operations.
Context {Config : Type} `{!GlobalConfig Config}.
Implicit Types (d : Dispatcher Config) (job : Job).

Definition set_nb_available_workers (n : Z) d : Dispatcher Config :=
  {| applied_config := applied_config d;
     executor_max_workers := executor_max_workers d;
     executor_futures := executor_futures d;
     _dispatched_processes := _dispatched_processes d;
     _nb_available_workers := n;
     jobs := jobs d;
     effects := effects d |}.

Definition set_executor_futures (fs : list Future) d : Dispatcher Config :=
  {| applied_config := applied_config d;
     executor_max_workers := executor_max_workers d;
     executor_futures := fs;
     _dispatched_processes := _dispatched_processes d;
     _nb_available_workers := _nb_available_workers d;
     jobs := jobs d;
     effects := effects d |}.

Definition set_dispatched_processes (m : gmap string nat) d : Dispatcher Config :=
  {| applied_config := applied_config d;
     executor_max_workers := executor_max_workers d;
     executor_futures := executor_futures d;
     _dispatched_processes := m;
     _nb_available_workers := _nb_available_workers d;
     jobs := jobs d;
     effects := effects d |}.

Definition set_jobs (js : gmap string JobRecord) d : Dispatcher Config :=
  {| applied_config := applied_config d;
     executor_max_workers := executor_max_workers d;
     executor_futures := executor_futures d;
     _dispatched_processes := _dispatched_processes d;
     _nb_available_workers := _nb_available_workers d;
     jobs := js;
     effects := effects d |}.

Definition set_applied_config (c : Config) d : Dispatcher Config :=
  {| applied_config := c;
     executor_max_workers := executor_max_workers d;
     executor_futures := executor_futures d;
     _dispatched_processes := _dispatched_processes d;
     _nb_available_workers := _nb_available_workers d;
     jobs := jobs d;
     effects := effects d |}.

Definition perform (e : effect) d : Dispatcher Config :=
  {| applied_config := applied_config d;
     executor_max_workers := executor_max_workers d;
     executor_futures := executor_futures d;
     _dispatched_processes := _dispatched_processes d;
     _nb_available_workers := _nb_available_workers d;
     jobs := jobs d;
     effects := effects d ++ [e] |}.

(** [__init__]: [max_workers = Config.job_config.max_nb_of_workers or 1];
    [ProcessPoolExecutor] raises [ValueError] for a non-positive
    [max_workers]; the counter starts at the executor's [_max_workers]. *)
Definition init (cfg : Config) (js : gmap string JobRecord) : option (Dispatcher Config) :=
  let max_workers :=
    match max_nb_of_workers cfg with
    | None => 1%Z
    | Some n => if decide (n = 0%Z) then 1%Z else n
    end in
  if decide (max_workers <= 0)%Z then None
  else Some {| applied_config := cfg;
               executor_max_workers := max_workers;
               executor_futures := [];
               _dispatched_processes := ∅;
               _nb_available_workers := max_workers;
               jobs := js;
               effects := [] |}.

(** [_can_execute] *)
Definition _can_execute d : bool :=
  bool_decide (_nb_available_workers d > 0)%Z.

(** [_set_dispatched_processes] *)
Definition _set_dispatched_processes (job_id : string) (process : nat) d :=
  perform (HandleRegistered job_id process)
    (set_dispatched_processes (<[job_id := process]> (_dispatched_processes d)) d).

(** [_release_worker] *)
Definition _release_worker d :=
  perform SlotReleased (set_nb_available_workers (_nb_available_workers d + 1)%Z d).

(** [_pop_dispatched_process]: [dict.pop(job_id, default)] never raises. *)
Definition _pop_dispatched_process (job_id : string) d :=
  perform (HandleRemoved job_id (_dispatched_processes d !! job_id))
    (set_dispatched_processes (delete job_id (_dispatched_processes d)) d).

(** [_is_dispatched] *)
Definition _is_dispatched (job_id : string) d : bool :=
  bool_decide (is_Some (_dispatched_processes d !! job_id)).

(** [_remove_dispatched_job] *)
Definition _remove_dispatched_job (job_id : string) d :=
  _pop_dispatched_process job_id d.

(** Modelled from the spec: [Job.update_status], of a class outside the
    sources.  A worker result carrying errors makes the job [FAILED] with
    the errors attached; an empty result makes it [COMPLETED]. *)
Definition record_of_result (exceptions : list Exception) : JobRecord :=
  match exceptions with
  | [] => {| status := COMPLETED; errors := [] |}
  | _ :: _ => {| status := FAILED; errors := exceptions |}
  end.

(** Modelled from the spec: [_JobDispatcher._update_job_status], the
    status-update operation of the base class, whose file is not part of
    the sources.  A worker result carrying errors is recorded on the job as
    the terminal [FAILED] status with the errors attached; an empty result
    makes the job [COMPLETED]. *)
Definition _update_job_status job (exceptions : list Exception) d :=
  let r := record_of_result exceptions in
  perform (StatusUpdated (job_id job) r)
    (set_jobs (<[job_id job := r]> (jobs d)) d).

(** [_update_job_status_from_future]: the handle is popped first.  A done
    callback is only called on a finished future, of which [ft_result] is
    the outcome: [ft.result()] returns the worker's result or re-raises the
    exception that the future holds, in which case the status update is
    not reached. *)
Definition _update_job_status_from_future job (ft_result : outcome) d
  : Dispatcher Config * option Exception :=
  let d1 := _pop_dispatched_process (job_id job) d in
  match ft_result with
  | Returned exceptions => (_update_job_status job exceptions d1, None)
  | Raised e => (d1, Some e)
  end.

(** One call [callback(future)] as [Future._invoke_callbacks] and
    [Future.add_done_callback] make it: an exception raised by the
    callback is logged and swallowed. *)
Definition invoke_callback (cb : done_callback) (ft_result : outcome) d :=
  match cb with
  | release_worker_cb => _release_worker d
  | update_job_status_from_future_cb job =>
      match _update_job_status_from_future job ft_result d with
      | (d', None) => d'
      | (d', Some e) => perform (CallbackFailed e) d'
      end
  end.

(** [Future.add_done_callback]: appended to the future's callbacks while the
    future is pending, called at once when it is already finished. *)
Definition add_done_callback (handle : nat) (cb : done_callback) d :=
  match executor_futures d !! handle with
  | None => d
  | Some ft =>
      match fut_result ft with
      | None =>
          set_executor_futures
            (<[handle := {| request := request ft;
                            fut_result := None;
                            done_callbacks := done_callbacks ft ++ [cb] |}]>
               (executor_futures d)) d
      | Some o => invoke_callback cb o d
      end
  end.

(** [Executor.submit] as a pool that is neither broken nor shut down
    answers it: a new pending future without callbacks, whose work item waits
    in the queue of the pool; the handle returned is its index.  The
    submission that raises is [_dispatch_refused] of module [Pool]. *)
Definition submit (req : ExecutionRequest) d : nat * Dispatcher Config :=
  let handle := length (executor_futures d) in
  (handle,
   perform (Submitted handle req)
     (set_executor_futures
        (executor_futures d ++
           [{| request := req; fut_result := None; done_callbacks := [] |}]) d)).

(** [_dispatch] *)
Definition _dispatch job d : Dispatcher Config :=
  let d := perform SlotTaken
             (set_nb_available_workers (_nb_available_workers d - 1)%Z d) in
  let config_as_string := _serialize (applied_config d) in
  let '(future, d) :=
    submit {| req_job_id := job_id job;
              req_task := job_task job;
              config_as_string := config_as_string |} d in
  let d := _set_dispatched_processes (job_id job) future d in
  let d := add_done_callback future release_worker_cb d in
  add_done_callback future (update_job_status_from_future_cb job) d.

(** The worker behind [handle] finishes with [o]: the future stores the
    result and then calls its callbacks in the order in which they were
    added.  A future finishes at most once.  Here the whole of
    [Future.set_result] is one step, which is what happens to a future whose
    [_dispatch] has returned; module [Threads] takes [set_result] and
    [_dispatch] line by line. *)
Definition worker_finishes (handle : nat) (o : outcome) d : option (Dispatcher Config) :=
  match executor_futures d !! handle with
  | None => None
  | Some ft =>
      match fut_result ft with
      | Some _ => None
      | None =>
          let ft' := {| request := request ft;
                        fut_result := Some o;
                        done_callbacks := done_callbacks ft |} in
          let d := set_executor_futures (<[handle := ft']> (executor_futures d)) d in
          Some (foldl (fun d cb => invoke_callback cb o d) d (done_callbacks ft'))
      end
  end.

(** The events the dispatcher is exposed to. *)
Inductive event :=
  | Dispatch (job : Job)
  | Complete (handle : nat) (o : outcome)
  | SetConfig (cfg : Config)
  | RemoveDispatched (job_id : string).

Definition step (e : event) d : option (Dispatcher Config) :=
  match e with
  | Dispatch job => Some (_dispatch job d)
  | Complete handle o => worker_finishes handle o d
  | SetConfig cfg => Some (set_applied_config cfg d)
  | RemoveDispatched job_id => Some (_remove_dispatched_job job_id d)
  end.

(** A run under an admission guard: an event the guard refuses makes the
    run inadmissible ([None]). *)
Fixpoint run (guard : event -> Dispatcher Config -> bool) (evs : list event) d
  : option (Dispatcher Config) :=
  match evs with
  | [] => Some d
  | e :: evs' =>
      if guard e d then
        match step e d with
        | Some d' => run guard evs' d'
        | None => None
        end
      else None
  end.

(** No guard at all: [_dispatch] is called whatever the counter says. *)
Definition unguarded (e : event) d : bool := true.

(** Modelled from the spec: the driver loop of the base class
    [_JobDispatcher], which is not part of the sources, calls [dispatch]
    only while [can_execute()] is true. *)
Definition capacity_gate (e : event) d : bool :=
  match e with
  | Dispatch _ => _can_execute d
  | _ => true
  end.

(** Modelled from the spec: the full precondition of [dispatch],
    [can_execute()] is true and the job is not already dispatched; only a
    job that is not dispatched is withdrawn with [remove_dispatched]. *)
Definition dispatch_contract (e : event) d : bool :=
  match e with
  | Dispatch job => _can_execute d && negb (_is_dispatched (job_id job) d)
  | RemoveDispatched job_id => negb (_is_dispatched job_id d)
  | _ => true
  end.

(** The future that [_dispatch] creates for a job. *)
Definition dispatched_future job d : Future :=
  {| request := {| req_job_id := job_id job;
                   req_task := job_task job;
                   config_as_string := _serialize (applied_config d) |};
     fut_result := None;
     done_callbacks := [release_worker_cb; update_job_status_from_future_cb job] |}.

(** What the second callback of a job leaves behind, by outcome: the job
    records and the last effect. *)
Definition jobs_after job (o : outcome) (js : gmap string JobRecord) : gmap string JobRecord :=
  match o with
  | Returned exceptions => <[job_id job := record_of_result exceptions]> js
  | Raised _ => js
  end.

Definition last_effect job (o : outcome) : effect :=
  match o with
  | Returned exceptions => StatusUpdated (job_id job) (record_of_result exceptions)
  | Raised e => CallbackFailed e
  end.

(** The state after the worker behind [handle] has finished with [o], for a
    future [ft] that carries the two callbacks of [job]. *)
Definition finished job (handle : nat) (ft : Future) (o : outcome) d : Dispatcher Config :=
  {| applied_config := applied_config d;
     executor_max_workers := executor_max_workers d;
     executor_futures :=
       <[handle := {| request := request ft; fut_result := Some o;
                      done_callbacks := done_callbacks ft |}]> (executor_futures d);
     _dispatched_processes := delete (job_id job) (_dispatched_processes d);
     _nb_available_workers := (_nb_available_workers d + 1)%Z;
     jobs := jobs_after job o (jobs d);
     effects := effects d ++
       [SlotReleased;
        HandleRemoved (job_id job) (_dispatched_processes d !! job_id job);
        last_effect job o] |}.

(** The futures whose result is not set yet: their work items wait in the
    queue of the pool or are executed by a worker process (module [Pool]
    tells the ones from the others). *)
Definition in_flight d : list Future :=
  filter (fun ft => fut_result ft = None) (executor_futures d).

(** Events of a run: the number of dispatches, and whether a worker
    finished. *)
Definition is_dispatch (e : event) : bool :=
  match e with Dispatch _ => true | _ => false end.

Definition is_completion (e : event) : bool :=
  match e with Complete _ _ => true | _ => false end.

Definition dispatches (evs : list event) : nat :=
  length (List.filter is_dispatch evs).

Definition no_completion (evs : list event) : bool :=
  forallb (fun e => negb (is_completion e)) evs.

(** How often the effects so far removed [handle] from the table. *)
Definition removes (handle : nat) (e : effect) : bool :=
  match e with
  | HandleRemoved _ (Some h) => bool_decide (h = handle)
  | _ => false
  end.

Definition removals (handle : nat) (effs : list effect) : nat :=
  length (List.filter (removes handle) effs).

(** Invariants of the states the dispatcher reaches.  Every future was
    created by [_dispatch] and carries the two callbacks of its job. *)
Definition created_for job (ft : Future) : Prop :=
  done_callbacks ft = [release_worker_cb; update_job_status_from_future_cb job]
  ∧ req_job_id (request ft) = job_id job.

Definition futures_wf d : Prop :=
  ∀ handle ft, executor_futures d !! handle = Some ft → ∃ job, created_for job ft.

(** Every slot is either available or held by a future in flight. *)
Definition slots_inv d : Prop :=
  (_nb_available_workers d + Z.of_nat (length (in_flight d))
   = executor_max_workers d)%Z.

(** A handle has been removed once when its future has finished, and not
    at all before. *)
Definition removed_once d : Prop :=
  ∀ handle,
    removals handle (effects d) =
    match executor_futures d !! handle with
    | Some ft => match fut_result ft with Some _ => 1 | None => 0 end
    | None => 0
    end.

(** The handle table and the futures in flight correspond one to one. *)
Definition table_inv d : Prop :=
  (∀ jid handle, _dispatched_processes d !! jid = Some handle →
     ∃ ft, executor_futures d !! handle = Some ft
           ∧ fut_result ft = None ∧ req_job_id (request ft) = jid)
  ∧ (∀ handle ft, executor_futures d !! handle = Some ft → fut_result ft = None →
       _dispatched_processes d !! req_job_id (request ft) = Some handle).

End Operations.

End Dispatcher.

(** ** The dispatcher and the pool's thread, step by step *)

Module Threads.
Import Dispatcher.

(** Where the main thread stands inside a call of [_dispatch], with the
    local variables [job] and [future]; line 54 runs when the call is
    entered. *)
Inductive frame :=
  | AtSubmit (job : Job)
  | AtRegistration (job : Job) (future : nat)
  | AtFirstCallback (job : Job) (future : nat)
  | AtSecondCallback (job : Job) (future : nat).

(** The dispatcher, the call of [_dispatch] in progress, for every future
    whose result is set the callbacks that [_invoke_callbacks] has not
    called yet, and the calls [callback(future)] made so far. *)
Record Threads {Config : Type} := {
  dispatcher : Dispatcher Config;
  main : option frame;
  invoking : gmap nat (list done_callback);
  calls : list (nat * done_callback)
}.
Arguments Threads : clear implicits.

Section Steps.
Context {Config : Type} `{!GlobalConfig Config}.
Implicit Types (s : Threads Config) (job : Job).

(** The steps of the two threads.  The main thread enters [_dispatch]
    (line 54), runs its next line, or leaves it by the exception of a
    submission that the pool refuses; the thread of the pool sets the
    result of a future ([Future.set_result], [Future.set_exception]) and
    then calls the callbacks of the future one after the other
    ([Future._invoke_callbacks]).  A call of a callback is one step. *)
Inductive event :=
  | Enter (job : Job)
  | Next
  | SubmitRaises (e : Exception)
  | SetResult (handle : nat) (o : outcome)
  | Invoke (handle : nat)
  | Configure (cfg : Config)
  | Withdraw (job_id : string).

Definition start (d : Dispatcher Config) : Threads Config :=
  {| dispatcher := d; main := None; invoking := ∅; calls := [] |}.

(** The result that a finished future holds. *)
Definition result_of (handle : nat) (d : Dispatcher Config) : option outcome :=
  executor_futures d !! handle ≫= fut_result.

(** One call [callback(future)] on a finished future. *)
Definition call (handle : nat) (cb : done_callback) (o : outcome) s : Threads Config :=
  {| dispatcher := invoke_callback cb o (dispatcher s);
     main := main s;
     invoking := invoking s;
     calls := calls s ++ [(handle, cb)] |}.

(** [Future.add_done_callback]: under the lock of the future the callback
    is appended when the future is pending; when the future is finished the
    callback is called by the calling thread. *)
Definition add_done_callback (handle : nat) (cb : done_callback) s : Threads Config :=
  {| dispatcher := Dispatcher.add_done_callback handle cb (dispatcher s);
     main := main s;
     invoking := invoking s;
     calls := calls s ++
       match result_of handle (dispatcher s) with
       | Some _ => [(handle, cb)]
       | None => []
       end |}.

(** [Future.set_result]: under the lock the result is stored and the state
    becomes FINISHED; the callbacks that the future holds at this moment
    are called after the lock is left.  A finished future raises
    [InvalidStateError]. *)
Definition set_result (handle : nat) (o : outcome) s : option (Threads Config) :=
  match executor_futures (dispatcher s) !! handle with
  | None => None
  | Some ft =>
      match fut_result ft with
      | Some _ => None
      | None =>
          Some {| dispatcher :=
                    set_executor_futures
                      (<[handle := {| request := request ft;
                                      fut_result := Some o;
                                      done_callbacks := done_callbacks ft |}]>
                         (executor_futures (dispatcher s))) (dispatcher s);
                  main := main s;
                  invoking := <[handle := done_callbacks ft]> (invoking s);
                  calls := calls s |}
      end
  end.

(** One iteration of the loop of [Future._invoke_callbacks]. *)
Definition invoke_next (handle : nat) s : option (Threads Config) :=
  match invoking s !! handle, result_of handle (dispatcher s) with
  | Some (cb :: rest), Some o =>
      Some (call handle cb o
              {| dispatcher := dispatcher s;
                 main := main s;
                 invoking := <[handle := rest]> (invoking s);
                 calls := calls s |})
  | _, _ => None
  end.

Definition at_line (f : option frame) s : Threads Config :=
  {| dispatcher := dispatcher s; main := f;
     invoking := invoking s; calls := calls s |}.

Definition with_dispatcher (d : Dispatcher Config) s : Threads Config :=
  {| dispatcher := d; main := main s;
     invoking := invoking s; calls := calls s |}.

(** Line 54 of [_dispatch]; the driver loop is one thread, so that no call
    is entered while another one is in progress. *)
Definition enter job s : option (Threads Config) :=
  match main s with
  | Some _ => None
  | None =>
      Some (at_line (Some (AtSubmit job))
              (with_dispatcher
                 (perform SlotTaken
                    (set_nb_available_workers
                       (_nb_available_workers (dispatcher s) - 1)%Z (dispatcher s))) s))
  end.

(** The next line of the call in progress: lines 55 and 56, line 58,
    line 59, line 61. *)
Definition next s : option (Threads Config) :=
  match main s with
  | None => None
  | Some (AtSubmit job) =>
      let config_as_string := _serialize (applied_config (dispatcher s)) in
      let '(future, d) :=
        submit {| req_job_id := job_id job;
                  req_task := job_task job;
                  config_as_string := config_as_string |} (dispatcher s) in
      Some (at_line (Some (AtRegistration job future)) (with_dispatcher d s))
  | Some (AtRegistration job future) =>
      Some (at_line (Some (AtFirstCallback job future))
              (with_dispatcher
                 (_set_dispatched_processes (job_id job) future (dispatcher s)) s))
  | Some (AtFirstCallback job future) =>
      Some (at_line (Some (AtSecondCallback job future))
              (add_done_callback future release_worker_cb s))
  | Some (AtSecondCallback job future) =>
      Some (at_line None
              (add_done_callback future (update_job_status_from_future_cb job) s))
  end.

(** [Executor.submit] raises on a broken or shut down pool: the exception
    leaves [_dispatch] after line 54. *)
Definition submit_raises s : option (Threads Config) :=
  match main s with
  | Some (AtSubmit _) => Some (at_line None s)
  | _ => None
  end.

Definition step (e : event) s : option (Threads Config) :=
  match e with
  | Enter job => enter job s
  | Next => next s
  | SubmitRaises _ => submit_raises s
  | SetResult handle o => set_result handle o s
  | Invoke handle => invoke_next handle s
  | Configure cfg => Some (with_dispatcher (set_applied_config cfg (dispatcher s)) s)
  | Withdraw job_id => Some (with_dispatcher (_remove_dispatched_job job_id (dispatcher s)) s)
  end.

Fixpoint run (evs : list event) s : option (Threads Config) :=
  match evs with
  | [] => Some s
  | e :: evs' =>
      match step e s with
      | Some s' => run evs' s'
      | None => None
      end
  end.

(** The result of [handle] is set while the main thread stands between the
    two calls of [add_done_callback] for this future. *)
Definition sets_between_callbacks (handle : nat) (e : event) s : bool :=
  match e, main s with
  | SetResult h _, Some (AtSecondCallback _ future) =>
      bool_decide (h = handle) && bool_decide (future = handle)
  | _, _ => false
  end.


(** The job for which a future was created, and its two callbacks. *)
Definition job_of (ft : Future) : Job :=
  {| job_id := req_job_id (request ft); job_task := req_task (request ft) |}.

Definition callbacks_of (ft : Future) : list done_callback :=
  [release_worker_cb; update_job_status_from_future_cb (job_of ft)].

(** The callbacks called so far for [handle], in the order of the calls,
    and those that [_invoke_callbacks] still has to call. *)
Definition called (handle : nat) s : list done_callback :=
  (filter (fun c => c.1 = handle) (calls s)).*2.

Definition to_call (handle : nat) s : list done_callback :=
  default [] (invoking s !! handle).


(** The number of calls of [add_done_callback] that the main thread has made
    for [handle]. *)
Definition attached (handle : nat) s : nat :=
  match main s with
  | Some (AtRegistration _ future)
  | Some (AtFirstCallback _ future) => if decide (future = handle) then 0 else 2
  | Some (AtSecondCallback _ future) => if decide (future = handle) then 1 else 2
  | _ => 2
  end.

(** The states of a future whose result was not set between the two calls
    of [add_done_callback]: [a] calls of [add_done_callback] were made,
    [rest] is still to be called by [_invoke_callbacks], [done] was
    called. *)
Definition in_order_at (a : nat) (rest done : list done_callback) (ft : Future) : Prop :=
  match fut_result ft with
  | None =>
      done_callbacks ft = take a (callbacks_of ft) ∧ rest = [] ∧ done = []
  | Some _ =>
      (done_callbacks ft = [] ∧ rest = [] ∧ done = take a (callbacks_of ft))
      ∨ (done_callbacks ft = callbacks_of ft ∧ a = 2
         ∧ done ++ rest = callbacks_of ft)
  end.


Definition in_order (handle : nat) s : Prop :=
  match executor_futures (dispatcher s) !! handle with
  | Some ft => in_order_at (attached handle s) (to_call handle s) (called handle s) ft
  | None => invoking s !! handle = None ∧ called handle s = []
  end.


(** The future of the call in progress was created for the job of the
    call. *)
Definition frame_ok s : Prop :=
  match main s with
  | Some (AtRegistration job future)
  | Some (AtFirstCallback job future)
  | Some (AtSecondCallback job future) =>
      ∃ ft, executor_futures (dispatcher s) !! future = Some ft ∧ job_of ft = job
  | _ => True
  end.


End Steps.

End Threads.

(** ** The dispatcher in front of its process pool *)

Module Pool.
Import Dispatcher.

(** The executor that [__init__] creates is a
    [ProcessPoolExecutor(max_workers=max_workers)]: [submit] puts a work
    item into the queue of the pool, or raises when the pool is broken or
    shut down; each of the at most [max_workers] worker processes takes one
    work item at a time out of the queue.  [executing] holds the handles of
    the work items that a process is executing, [executed] those whose
    execution has ended. *)
Record Pool {Config : Type} := {
  dispatcher : Dispatcher Config;
  executing : list nat;
  executed : list nat
}.
Arguments Pool : clear implicits.

Section Pool.
Context {Config : Type} `{!GlobalConfig Config}.
Implicit Types (p : Pool Config) (d : Dispatcher Config) (job : Job).

(** [_dispatch] on a pool that refuses the submission: line 54 has taken
    the slot when [Executor.submit] raises [BrokenProcessPool], or
    [RuntimeError] after a shutdown; no line of [_dispatch] catches the
    exception, and lines 58 to 61 are not reached. *)
Definition _dispatch_refused job (e : Exception) d : Dispatcher Config * Exception :=
  (perform SlotTaken (set_nb_available_workers (_nb_available_workers d - 1)%Z d), e).

(** The events of the dispatcher, a call of [_dispatch] that the pool
    refuses, and the worker processes: a process takes a work item, a
    process has executed its work item (the result is then on its way to
    the future). *)
Inductive event :=
  | Call (e : @Dispatcher.event Config)
  | RefusedDispatch (job : Job) (e : Exception)
  | Start (handle : nat)
  | Stop (handle : nat).

Definition start (d : Dispatcher Config) : Pool Config :=
  {| dispatcher := d; executing := []; executed := [] |}.

Definition is_pending (handle : nat) d : bool :=
  match executor_futures d !! handle with
  | Some ft => bool_decide (fut_result ft = None)
  | None => false
  end.

(** A work item waits in the queue of the pool. *)
Definition queued (handle : nat) p : bool :=
  is_pending handle (dispatcher p)
  && bool_decide (handle ∉ executing p) && bool_decide (handle ∉ executed p).

(** A process is idle. *)
Definition idle_process p : bool :=
  bool_decide (Z.of_nat (length (executing p)) < executor_max_workers (dispatcher p))%Z.

Definition without (handle : nat) (l : list nat) : list nat :=
  filter (fun h => h ≠ handle) l.

(** A future that finishes is no longer executed: its process has sent the
    result, or the pool broke. *)
Definition finishes (e : @Dispatcher.event Config) (l : list nat) : list nat :=
  match e with
  | Complete handle _ => without handle l
  | _ => l
  end.

Definition step (e : event) p : option (Pool Config) :=
  match e with
  | Call e =>
      match Dispatcher.step e (dispatcher p) with
      | Some d => Some {| dispatcher := d;
                          executing := finishes e (executing p);
                          executed := executed p |}
      | None => None
      end
  | RefusedDispatch job e =>
      Some {| dispatcher := (_dispatch_refused job e (dispatcher p)).1;
              executing := executing p;
              executed := executed p |}
  | Start handle =>
      if queued handle p && idle_process p
      then Some {| dispatcher := dispatcher p;
                   executing := executing p ++ [handle];
                   executed := executed p |}
      else None
  | Stop handle =>
      if bool_decide (handle ∈ executing p)
      then Some {| dispatcher := dispatcher p;
                   executing := without handle (executing p);
                   executed := executed p ++ [handle] |}
      else None
  end.

Fixpoint run (evs : list event) p : option (Pool Config) :=
  match evs with
  | [] => Some p
  | e :: evs' =>
      match step e p with
      | Some p' => run evs' p'
      | None => None
      end
  end.

(** The calls of [_dispatch] of a run that the pool refused. *)
Definition is_refusal (e : event) : bool :=
  match e with RefusedDispatch _ _ => true | _ => false end.

Definition refusals (evs : list event) : nat :=
  length (List.filter is_refusal evs).



End Pool.

End Pool.

(** ** Directed graphs as [networkx.DiGraph] keeps them *)

Module Nx.

(** The nodes of a pipeline graph are the entities themselves; two nodes are
    the same node when they are the same entity.  (taipy compares entities
    by their id; the tasks of a pipeline have different ids.) *)
Inductive node :=
  | DataNodeN (dn : DataNode)
  | TaskN (t : Task).

Global Instance node_eq_dec : EqDecision node.
Proof. solve_decision. Defined.

(** [isinstance(node, DataNode)] and [isinstance(node, Task)]; [Task] has no
    subclass, so [type(node) is Task] is the same test. *)
Definition is_DataNode (n : node) : bool :=
  match n with DataNodeN _ => true | TaskN _ => false end.

Definition is_Task (n : node) : bool :=
  match n with DataNodeN _ => false | TaskN _ => true end.

(** A [DiGraph]: nodes and edges in insertion order, each stored once. *)
Record DiGraph := { nodes : list node; edges : list (node * node) }.

Definition empty_graph : DiGraph := {| nodes := []; edges := [] |}.

(** [DiGraph.add_node]: an existing node is left where it is. *)
Definition add_node (n : node) (g : DiGraph) : DiGraph :=
  if decide (n ∈ nodes g) then g
  else {| nodes := nodes g ++ [n]; edges := edges g |}.

(** Adding one edge adds its end points first; an existing edge is kept. *)
Definition add_edge (e : node * node) (g : DiGraph) : DiGraph :=
  let g := add_node e.1 g in
  let g := add_node e.2 g in
  if decide (e ∈ edges g) then g
  else {| nodes := nodes g; edges := edges g ++ [e] |}.

(** [DiGraph.add_edges_from] *)
Definition add_edges_from (ebunch : list (node * node)) (g : DiGraph) : DiGraph :=
  foldl (fun g e => add_edge e g) g ebunch.

(** A node of [remaining] is blocked while one of its predecessors is still
    in [remaining]. *)
Definition blocked (E : list (node * node)) (remaining : list node) (v : node) : Prop :=
  Exists (fun e => e.2 = v ∧ e.1 ∈ remaining) E.

Global Instance blocked_dec E remaining v : Decision (blocked E remaining v).
Proof. unfold blocked. apply _. Defined.

(** The nodes without unprocessed predecessor. *)
Definition zero_indegree (E : list (node * node)) (remaining : list node) : list node :=
  filter (fun v => ¬ blocked E remaining v) remaining.

(** The generations and the nodes that are stuck when no node is free any more.
    Every round removes at least one node, so [length remaining] rounds
    are enough. *)
Fixpoint layers (fuel : nat) (E : list (node * node)) (remaining : list node)
  : list (list node) * list node :=
  match fuel with
  | O => ([], remaining)
  | S fuel' =>
      match zero_indegree E remaining with
      | [] => ([], remaining)
      | this_generation =>
          let '(generations, stuck) :=
            layers fuel' E (list_difference remaining this_generation) in
          (this_generation :: generations, stuck)
      end
  end.

(** [networkx.topological_generations]: a generator that yields the
    generations (all nodes with no unprocessed predecessor form a
    generation, removed before the next one is computed) and, once no node
    is free, raises [NetworkXUnfeasible] when nodes are left.  The order of
    the nodes inside a generation is not part of networkx's contract; here
    it is the insertion order of the nodes. *)
Definition topological_generations (g : DiGraph) : list (list node) * option Exception :=
  let '(generations, stuck) := layers (length (nodes g)) (edges g) (nodes g) in
  (generations,
   match stuck with
   | [] => None
   | _ :: _ => Some "NetworkXUnfeasible"%string
   end).

(** [networkx.is_directed_acyclic_graph]: the topological sort runs to its
    end and [NetworkXUnfeasible] is caught. *)
Definition is_directed_acyclic_graph (g : DiGraph) : bool :=
  match (topological_generations g).2 with
  | None => true
  | Some _ => false
  end.

(** What [DiGraph] maintains: every node and every edge is stored once, and
    the end points of an edge are nodes. *)
Definition graph_wf (g : DiGraph) : Prop :=
  NoDup (nodes g) ∧ NoDup (edges g)
  ∧ ∀ e, e ∈ edges g → e.1 ∈ nodes g ∧ e.2 ∈ nodes g.

(** The index of the first generation that holds [x]. *)
Fixpoint generation_of (x : node) (generations : list (list node)) : nat :=
  match generations with
  | [] => 0
  | g :: generations' =>
      if decide (x ∈ g) then 0 else S (generation_of x generations')
  end.

(** How often [x] occurs in [l]. *)
Definition occurrences {A : Type} `{!EqDecision A} (x : A) (l : list A) : nat :=
  length (filter (fun y => y = x) l).

(** The edge relation and cycles, stated without reference to the sort. *)
Definition edge (g : DiGraph) (u v : node) : Prop := (u, v) ∈ edges g.

Definition has_cycle (g : DiGraph) : Prop := ∃ v, tc (edge g) v v.

(** The generations alternate: only data nodes where [is_data_node] is
    true, only tasks where it is false, flipping at every generation. *)
Fixpoint alternating (is_data_node : bool) (generations : list (list node)) : Prop :=
  match generations with
  | [] => True
  | g :: generations' =>
      (∀ n, n ∈ g → if is_data_node then is_DataNode n = true else is_Task n = true)
      ∧ alternating (negb is_data_node) generations'
  end.

End Nx.

(** ** Pipelines *)

Module Pipeline.
Import Nx.

(** [d[k] = v] on a dictionary in insertion order: the value of an existing
    key is replaced where the key stands, a new key goes to the end. *)
Fixpoint dict_set {V : Type} (k : string) (v : V) (d : list (string * V))
  : list (string * V) :=
  match d with
  | [] => [(k, v)]
  | (k', v') :: d' =>
      if decide (k = k') then (k, v) :: d' else (k', v') :: dict_set k v d'
  end.

Fixpoint dict_get {V : Type} (k : string) (d : list (string * V)) : option V :=
  match d with
  | [] => None
  | (k', v') :: d' => if decide (k = k') then Some v' else dict_get k d'
  end.

Definition values {V : Type} (d : list (string * V)) : list V := d.*2.

(** [{task.config_id: task for task in tasks}] *)
Definition tasks_by_config_id (tasks : list Task) : list (string * Task) :=
  foldl (fun d task => dict_set (config_id task) task d) [] tasks.

Record Pipeline := {
  _config_id : string;
  _tasks : list (string * Task);
  pipeline_id : string;
  _parent_id : option string;
  is_consistent : bool
}.

(** The body of the loop of [__build_dag], for one task. *)
Definition add_task (graph : DiGraph) (task : Task) : DiGraph :=
  let has_input := bool_decide (input task ≠ []) in
  let graph :=
    if has_input then
      foldl (fun graph predecessor =>
               add_edges_from [(DataNodeN predecessor, TaskN task)] graph)
            graph (values (input task))
    else graph in
  let has_output := bool_decide (output task ≠ []) in
  let graph :=
    if has_output then
      foldl (fun graph successor =>
               add_edges_from [(TaskN task, DataNodeN successor)] graph)
            graph (values (output task))
    else graph in
  if negb has_input && negb has_output then add_node (TaskN task) graph
  else graph.

(** The edges and the nodes that a task brings into the graph. *)
Definition task_edges (task : Task) : list (node * node) :=
  ((fun predecessor => (DataNodeN predecessor, TaskN task)) <$> values (input task))
  ++ ((fun successor => (TaskN task, DataNodeN successor)) <$> values (output task)).

Definition task_nodes (task : Task) : list node :=
  TaskN task :: (DataNodeN <$> values (input task) ++ values (output task)).

(** [__build_dag] *)
Definition __build_dag (tasks : list (string * Task)) : DiGraph :=
  foldl add_task empty_graph (values tasks).

(** The two tests in the body of the inner loop of [__is_consistent]. *)
Definition wrong_kind (is_data_node : bool) (n : node) : bool :=
  (is_data_node && negb (is_DataNode n)) || (negb is_data_node && negb (is_Task n)).

(** The loop over the generator: a [return False] leaves the generator
    unfinished; the exception it holds is only met when the loop reaches
    its end. *)
Fixpoint check_generations (is_data_node : bool) (generations : list (list node))
    (stop : option Exception) : result bool :=
  match generations with
  | [] => match stop with
          | None => Ok true
          | Some e => Raise e
          end
  | nodes :: generations' =>
      if existsb (wrong_kind is_data_node) nodes then Ok false
      else check_generations (negb is_data_node) generations' stop
  end.

(** [__is_consistent] *)
Definition __is_consistent (tasks : list (string * Task)) : result bool :=
  let dag := __build_dag tasks in
  if negb (is_directed_acyclic_graph dag) then Ok false
  else
    let '(generations, stop) := topological_generations dag in
    check_generations true generations stop.

(** [get_sorted_tasks]: [list(...)] runs the generator to its end, so the
    exception of a cyclic graph is raised. *)
Definition get_sorted_tasks (tasks : list (string * Task)) : result (list (list node)) :=
  let dag := __build_dag tasks in
  let '(generations, stop) := topological_generations dag in
  match stop with
  | Some e => Raise e
  | None => Ok (List.filter (fun nodes => existsb is_Task nodes) generations)
  end.

Section Construction.
(** [_validate_id] and the identifier drawn by [uuid.uuid4] come from
    modules outside the sources. *)
Context (_validate_id : string -> result string) (uuid4 : string).

(** [new_id] *)
Definition new_id (config_id : string) : result string :=
  match _validate_id config_id with
  | Raise e => Raise e
  | Ok cid => Ok ("PIPELINE" +:+ "_" +:+ cid +:+ "_" +:+ uuid4)
  end.

(** [__init__] (the subscribers and the property bag play no role here). *)
Definition __init__ (config_id : string) (tasks : list Task)
    (pipeline_id : option string) (parent_id : option string)
  : result Pipeline :=
  match _validate_id config_id with
  | Raise e => Raise e
  | Ok cid =>
      let tasks' := tasks_by_config_id tasks in
      let new := match pipeline_id with
                 | Some i => if decide (i = String.EmptyString) then new_id cid else Ok i
                 | None => new_id cid
                 end in
      match new with
      | Raise e => Raise e
      | Ok i =>
          match __is_consistent tasks' with
          | Raise e => Raise e
          | Ok flag =>
              Ok {| _config_id := cid;
                     _tasks := tasks';
                     pipeline_id := i;
                     _parent_id := parent_id;
                     is_consistent := flag |}
          end
      end
  end.

End Construction.

(** The setter of [tasks]: the mapping is rebuilt, the flag is not. *)
Definition set_tasks (val : list Task) (p : Pipeline) : Pipeline :=
  {| _config_id := _config_id p;
     _tasks := tasks_by_config_id val;
     pipeline_id := pipeline_id p;
     _parent_id := _parent_id p;
     is_consistent := is_consistent p |}.

End Pipeline.

(** ** Looking into a pipeline *)

Module PipelineAccess.
Import Nx Pipeline.

(** What [__getattr__] can return: the value of a property, a task, or a
    data node. *)
Inductive attribute (V : Type) :=
  | PropertyValue (v : V)
  | TaskAttribute (t : Task)
  | DataNodeAttribute (d : DataNode).
Arguments PropertyValue {V} v.
Arguments TaskAttribute {V} t.
Arguments DataNodeAttribute {V} d.

(** The loop of [__getattr__] over the tasks: the first task that has the
    name among its inputs or, failing that, among its outputs decides. *)
Fixpoint find_data_node (name : string) (tasks : list Task) : option DataNode :=
  match tasks with
  | [] => None
  | task :: tasks' =>
      match dict_get name (input task) with
      | Some d => Some d
      | None =>
          match dict_get name (output task) with
          | Some d => Some d
          | None => find_data_node name tasks'
          end
      end
  end.

Definition AttributeError (attribute_name pipeline_id : string) : Exception :=
  attribute_name +:+ " is not an attribute of pipeline " +:+ pipeline_id.

(** [__getattr__]; [properties] is the property bag that the [properties]
    getter has reloaded. *)
Definition __getattr__ {V : Type} (_validate_id : string -> result string)
    (properties : list (string * V)) (p : Pipeline) (attribute_name : string)
  : result (attribute V) :=
  match _validate_id attribute_name with
  | Raise e => Raise e
  | Ok protected_attribute_name =>
      match dict_get protected_attribute_name properties with
      | Some v => Ok (PropertyValue v)
      | None =>
          match dict_get protected_attribute_name (_tasks p) with
          | Some t => Ok (TaskAttribute t)
          | None =>
              match find_data_node protected_attribute_name (values (_tasks p)) with
              | Some d => Ok (DataNodeAttribute d)
              | None => Raise (AttributeError attribute_name (pipeline_id p))
              end
          end
      end
  end.

(** [__eq__]: pipelines are compared by their id. *)
Definition __eq__ (p other : Pipeline) : bool :=
  bool_decide (pipeline_id p = pipeline_id other).

(** The persisted form of a pipeline.  The property bag and the
    subscribers are handed over as they are ([_fcts_to_dict] is outside the
    sources). *)
Record PipelineModel {V S : Type} := {
  model_id : string;
  model_parent_id : option string;
  model_config_id : string;
  model_properties : list (string * V);
  model_tasks : list string;
  model_subscribers : S
}.
Arguments PipelineModel : clear implicits.

(** [to_model] *)
Definition to_model {V S : Type} (properties_data : list (string * V))
    (subscribers : S) (p : Pipeline) : PipelineModel V S :=
  {| model_id := pipeline_id p;
     model_parent_id := _parent_id p;
     model_config_id := _config_id p;
     model_properties := properties_data;
     model_tasks := task_id <$> values (_tasks p);
     model_subscribers := subscribers |}.

(** The names under which a task knows its data nodes. *)
Definition names (d : list (string * DataNode)) : list string := d.*1.

End PipelineAccess.

(** ** Sample entities, used to evaluate the definitions *)

Module Samples.
Import Dispatcher Nx Pipeline.

(** A configuration reduced to what the dispatcher reads from it. *)
Record SampleConfig := { workers : option Z; text : string }.

Global Instance SampleConfig_GlobalConfig : GlobalConfig SampleConfig :=
  {| max_nb_of_workers := workers; _serialize := text |}.

Definition one_worker : SampleConfig :=
  {| workers := Some 1%Z; text := "[JOB] max_nb_of_workers = 1" |}.

Definition two_workers : SampleConfig :=
  {| workers := Some 2%Z; text := "[JOB] max_nb_of_workers = 2" |}.

Definition dn_a : DataNode := {| dn_id := "DATANODE_a" |}.
Definition dn_b : DataNode := {| dn_id := "DATANODE_b" |}.
Definition dn_c : DataNode := {| dn_id := "DATANODE_c" |}.

(** [T1(a -> b)] *)
Definition T1 : Task :=
  {| task_id := "TASK_t1"; config_id := "t1";
     input := [("a", dn_a)]; output := [("b", dn_b)] |}.

(** [T2(b -> c)], fed by the output of [T1]. *)
Definition T2 : Task :=
  {| task_id := "TASK_t2"; config_id := "t2";
     input := [("b", dn_b)]; output := [("c", dn_c)] |}.

(** A task that closes a cycle with [T1]: [(b -> a)]. *)
Definition T_back : Task :=
  {| task_id := "TASK_back"; config_id := "back";
     input := [("b", dn_b)]; output := [("a", dn_a)] |}.

(** A task without input and without output. *)
Definition T_alone : Task :=
  {| task_id := "TASK_alone"; config_id := "alone"; input := []; output := [] |}.

(** Another task configured as [t1]. *)
Definition T1_again : Task :=
  {| task_id := "TASK_t1_again"; config_id := "t1";
     input := [("c", dn_c)]; output := [("b", dn_b)] |}.

Definition job_A : Job := {| job_id := "JOB_A"; job_task := T1 |}.
Definition job_B : Job := {| job_id := "JOB_B"; job_task := T2 |}.

(** The dispatcher as [__init__] leaves it. *)
Definition fresh_dispatcher (cfg : SampleConfig) : Dispatcher SampleConfig :=
  default
    {| applied_config := cfg; executor_max_workers := 0; executor_futures := [];
       _dispatched_processes := ∅; _nb_available_workers := 0; jobs := ∅;
       effects := [] |}
    (init cfg ∅).

(** Job A is dispatched, then job B, then the configuration changes. *)
Definition A_then_B : Dispatcher SampleConfig :=
  set_applied_config one_worker
    (_dispatch job_B (_dispatch job_A (fresh_dispatcher two_workers))).

Definition dispatch_A_and_B : list (@event SampleConfig) :=
  [Dispatch job_A; Dispatch job_B].

(** Both jobs are in flight on two workers. *)
Definition both_in_flight : Dispatcher SampleConfig :=
  _dispatch job_B (_dispatch job_A (fresh_dispatcher two_workers)).

(** One worker, taken by job A. *)
Definition worker_taken : Dispatcher SampleConfig :=
  _dispatch job_A (fresh_dispatcher one_worker).

(** A task that reads nothing and writes [c]. *)
Definition T_source : Task :=
  {| task_id := "TASK_source"; config_id := "source";
     input := []; output := [("c", dn_c)] |}.

(** Task dictionaries: a chain, a cycle, a chain next to an isolated task,
    and a chain next to a task without input. *)
Definition chain : list (string * Task) := tasks_by_config_id [T1; T2].
Definition cyclic : list (string * Task) := tasks_by_config_id [T1; T_back].
Definition with_alone : list (string * Task) := tasks_by_config_id [T1; T_alone].
Definition with_source : list (string * Task) := tasks_by_config_id [T1; T_source].

(** Identifiers are accepted as they are. *)
Definition accept_id (s : string) : result string := Ok s.

End Samples.

(** ** More sample entities *)

Module MoreSamples.
Import Pipeline.

(** The pipeline of the chain, as the constructor builds it. *)
Definition chain_pipeline : Pipeline :=
  {| _config_id := "chain";
     _tasks := Samples.chain;
     pipeline_id := "PIPELINE_chain_6f1c";
     _parent_id := None;
     is_consistent := true |}.

End MoreSamples.

(** ** Sample runs of the threads and of the pool *)

Module RaceSamples.
Import Dispatcher Threads Samples.

(** The two threads from the dispatcher that [__init__] leaves. *)
Definition after (evs : list (@event SampleConfig)) : Threads SampleConfig :=
  default (start (fresh_dispatcher two_workers))
    (run evs (start (fresh_dispatcher two_workers))).




End RaceSamples.

Module PoolSamples.
Import Dispatcher Pool Samples.

(** The pool behind the dispatcher that [__init__] leaves. *)
Definition after (cfg : SampleConfig) (evs : list (@event SampleConfig)) : Pool SampleConfig :=
  default (start (fresh_dispatcher cfg)) (run evs (start (fresh_dispatcher cfg))).


(** Two workers: job A is in flight, the submission of job B raises. *)
Definition B_refused : list (@event SampleConfig) :=
  [Call (Dispatch job_A); Start 0; RefusedDispatch job_B "BrokenProcessPool"].

End PoolSamples.

(** * Properties of the dispatcher *)

Module DispatcherProofs.
Import Dispatcher.

Section Proofs.
Context {Config : Type} `{!GlobalConfig Config}.
Implicit Types (d : Dispatcher Config) (job : Job) (ft : Future).

(** Evaluate the field updates on a state given by its fields. *)
Ltac eval_setters :=
  cbv beta iota delta
    [perform set_nb_available_workers set_executor_futures
     set_dispatched_processes set_jobs set_applied_config
     applied_config executor_max_workers executor_futures
     _dispatched_processes _nb_available_workers jobs effects].

Lemma lookup_snoc_last {A} (l : list A) (x : A) : (l ++ [x]) !! length l = Some x.
Proof. by rewrite lookup_app_r, Nat.sub_diag by lia. Qed.

Lemma insert_snoc_last {A} (l : list A) (x y : A) :
  <[length l := y]> (l ++ [x]) = l ++ [y].
Proof. by rewrite insert_app_r_alt, Nat.sub_diag by lia. Qed.

(** [_dispatch] written out as one state update. *)
Lemma dispatch_unfold job d :
  _dispatch job d =
  {| applied_config := applied_config d;
     executor_max_workers := executor_max_workers d;
     executor_futures := executor_futures d ++ [dispatched_future job d];
     _dispatched_processes :=
       <[job_id job := length (executor_futures d)]> (_dispatched_processes d);
     _nb_available_workers := (_nb_available_workers d - 1)%Z;
     jobs := jobs d;
     effects := effects d ++
       [SlotTaken;
        Submitted (length (executor_futures d)) (request (dispatched_future job d));
        HandleRegistered (job_id job) (length (executor_futures d))] |}.
Proof.
  destruct d as [cfg max_workers futures table nb js effs].
  unfold _dispatch, submit, _set_dispatched_processes, add_done_callback.
  cbn. rewrite lookup_snoc_last. cbn.
  rewrite insert_snoc_last, lookup_snoc_last. cbn.
  rewrite insert_snoc_last. unfold dispatched_future. eval_setters.
  by rewrite <- !app_assoc.
Qed.

(** A worker that finishes runs the two callbacks of its future. *)
Lemma finish_unfold job handle ft o d :
  executor_futures d !! handle = Some ft ->
  fut_result ft = None ->
  done_callbacks ft = [release_worker_cb; update_job_status_from_future_cb job] ->
  worker_finishes handle o d = Some (finished job handle ft o d).
Proof.
  destruct d as [cfg max_workers futures table nb js effs]. cbn.
  intros Hft Hres Hcbs. unfold worker_finishes. cbn. rewrite Hft, Hres. cbn.
  rewrite Hcbs. cbn. f_equal. unfold finished. cbn. rewrite Hcbs.
  unfold _update_job_status_from_future, _update_job_status, _release_worker,
    _pop_dispatched_process.
  destruct o as [exceptions | e]; eval_setters; cbn; by rewrite <- !app_assoc.
Qed.

(** *** What one event does *)

Lemma step_complete handle o d d' :
  futures_wf d ->
  step (Complete handle o) d = Some d' ->
  ∃ job ft, executor_futures d !! handle = Some ft ∧ fut_result ft = None
            ∧ created_for job ft ∧ d' = finished job handle ft o d.
Proof.
  intros Hwf Hstep. simpl in Hstep.
  destruct (executor_futures d !! handle) as [ft|] eqn:Hft;
    [| by unfold worker_finishes in Hstep; rewrite Hft in Hstep].
  destruct (fut_result ft) as [r|] eqn:Hres;
    [by unfold worker_finishes in Hstep; rewrite Hft, Hres in Hstep |].
  destruct (Hwf _ _ Hft) as [job Hjob]. exists job, ft.
  rewrite (finish_unfold job handle ft o d) in Hstep by (done || apply Hjob).
  by inversion Hstep.
Qed.

Lemma step_max_workers e d d' :
  futures_wf d -> step e d = Some d' ->
  executor_max_workers d' = executor_max_workers d.
Proof.
  intros Hwf Hstep. destruct e as [job | handle o | cfg | jid].
  - simpl in Hstep. inversion Hstep. by rewrite dispatch_unfold.
  - destruct (step_complete _ _ _ _ Hwf Hstep) as (job & ft & _ & _ & _ & ->). done.
  - simpl in Hstep. by inversion Hstep.
  - simpl in Hstep. by inversion Hstep.
Qed.

Lemma step_futures_wf e d d' :
  futures_wf d -> step e d = Some d' -> futures_wf d'.
Proof.
  intros Hwf Hstep. destruct e as [job | handle o | cfg | jid];
    [| | simpl in Hstep; inversion Hstep; intros h ft; simpl; apply Hwf ..].
  - simpl in Hstep. inversion Hstep as [Heq]. clear Hstep Heq.
    rewrite dispatch_unfold. intros h ft. simpl. intros Hlook.
    apply lookup_app_Some in Hlook as [Hlook | [_ Hlook]]; [by eapply Hwf |].
    apply list_lookup_singleton_Some in Hlook as [_ <-].
    by exists job.
  - destruct (step_complete _ _ _ _ Hwf Hstep) as (job & ft & Hft & _ & Hjob & ->).
    intros h ft'. simpl. intros Hlook.
    apply list_lookup_insert_Some in Hlook as [(-> & <- & _) | [_ Hlook]];
      [by exists job | by eapply Hwf].
Qed.

(** *** Counting the futures in flight *)

Lemma length_filter_insert {A} (P : A -> Prop) `{!∀ x, Decision (P x)}
    (l : list A) (i : nat) (x y : A) :
  l !! i = Some x -> P x -> ¬ P y ->
  S (length (filter P (<[i := y]> l))) = length (filter P l).
Proof.
  revert i. induction l as [| a l IH]; intros [| i] Hl Hx Hy; simplify_eq/=.
  - by rewrite filter_cons_False, filter_cons_True.
  - destruct (decide (P a)).
    + rewrite !filter_cons_True by done. simpl. f_equal. by apply IH.
    + rewrite !filter_cons_False by done. by apply IH.
Qed.

Lemma in_flight_dispatch job d :
  length (in_flight (_dispatch job d)) = S (length (in_flight d)).
Proof.
  rewrite dispatch_unfold. unfold in_flight. simpl.
  rewrite filter_app, filter_cons_True, filter_nil by done.
  rewrite length_app. simpl. lia.
Qed.

Lemma in_flight_finished job handle ft o d :
  executor_futures d !! handle = Some ft -> fut_result ft = None ->
  S (length (in_flight (finished job handle ft o d))) = length (in_flight d).
Proof.
  intros Hft Hres. unfold in_flight. simpl.
  by apply (length_filter_insert (fun ft => fut_result ft = None)) with (x := ft).
Qed.

Lemma step_slots_inv e d d' :
  futures_wf d -> step e d = Some d' -> slots_inv d -> slots_inv d'.
Proof.
  unfold slots_inv. intros Hwf Hstep Hinv.
  destruct e as [job | handle o | cfg | jid];
    [| | simpl in Hstep; inversion Hstep; done ..].
  - simpl in Hstep. inversion Hstep as [Heq]. rewrite in_flight_dispatch.
    rewrite dispatch_unfold. simpl. lia.
  - destruct (step_complete _ _ _ _ Hwf Hstep) as (job & ft & Hft & Hres & _ & ->).
    pose proof (in_flight_finished job handle ft o d Hft Hres). simpl. lia.
Qed.

(** *** The state left by [__init__] *)

Lemma init_state cfg js d :
  init cfg js = Some d ->
  (0 < executor_max_workers d)%Z
  ∧ _nb_available_workers d = executor_max_workers d
  ∧ executor_futures d = [] ∧ _dispatched_processes d = ∅.
Proof.
  unfold init. intros Hinit. case_decide as Hle; [done |]. inversion Hinit. simpl.
  repeat split; try done. lia.
Qed.

Lemma init_invariants cfg js d :
  init cfg js = Some d -> futures_wf d ∧ slots_inv d ∧ table_inv d.
Proof.
  intros Hinit. destruct (init_state _ _ _ Hinit) as (Hpos & Hnb & Hfs & Htable).
  unfold futures_wf, slots_inv, table_inv, in_flight. rewrite Hfs, Htable, Hnb.
  repeat split; try done. simpl. lia.
Qed.

(** *** Runs *)

Lemma run_invariants guard evs d d' :
  run guard evs d = Some d' ->
  futures_wf d -> slots_inv d ->
  futures_wf d' ∧ slots_inv d' ∧ executor_max_workers d' = executor_max_workers d.
Proof.
  revert d. induction evs as [| e evs IH]; intros d Hrun Hwf Hslots; simpl in Hrun.
  - by inversion Hrun; subst.
  - destruct (guard e d); [| done].
    destruct (step e d) as [d1|] eqn:Hstep; [| done].
    destruct (IH d1 Hrun) as (Hwf' & Hslots' & Hmax);
      [by eapply step_futures_wf | by eapply step_slots_inv |].
    repeat split; try done. rewrite Hmax. by eapply step_max_workers.
Qed.

(** Under the capacity gate the counter never becomes negative. *)
Lemma run_capacity_nonneg evs d d' :
  run capacity_gate evs d = Some d' ->
  futures_wf d -> (0 <= _nb_available_workers d)%Z ->
  (0 <= _nb_available_workers d')%Z.
Proof.
  revert d. induction evs as [| e evs IH]; intros d Hrun Hwf Hnb; simpl in Hrun.
  - by inversion Hrun; subst.
  - destruct (capacity_gate e d) eqn:Hgate; [| done].
    destruct (step e d) as [d1|] eqn:Hstep; [| done].
    apply (IH d1 Hrun); [by eapply step_futures_wf |].
    destruct e as [job | handle o | cfg | jid];
      [| | simpl in Hstep; inversion Hstep; done ..].
    + simpl in Hstep, Hgate. inversion Hstep. rewrite dispatch_unfold. simpl.
      unfold _can_execute in Hgate. apply bool_decide_eq_true in Hgate. lia.
    + destruct (step_complete _ _ _ _ Hwf Hstep) as (job & ft & _ & _ & _ & ->).
      simpl. lia.
Qed.

(** A run in which no worker finishes. *)
Lemma run_without_completion guard evs d d' :
  run guard evs d = Some d' ->
  no_completion evs = true ->
  _nb_available_workers d' = (_nb_available_workers d - Z.of_nat (dispatches evs))%Z.
Proof.
  unfold dispatches, no_completion.
  revert d. induction evs as [| e evs IH]; intros d Hrun Hnone; simpl in *.
  - inversion Hrun; subst. lia.
  - destruct (guard e d); [| done].
    apply andb_prop in Hnone as [He Hnone].
    destruct e as [job | handle o | cfg | jid]; simpl in *; try done.
    + rewrite (IH _ Hrun Hnone), dispatch_unfold. simpl. lia.
    + by rewrite (IH _ Hrun Hnone).
    + by rewrite (IH _ Hrun Hnone).
Qed.

(** A future keeps its request and its callbacks for ever, and its result
    once it has one. *)
Lemma step_future_stable e d d' handle ft :
  futures_wf d -> step e d = Some d' ->
  executor_futures d !! handle = Some ft ->
  ∃ ft', executor_futures d' !! handle = Some ft'
         ∧ request ft' = request ft ∧ done_callbacks ft' = done_callbacks ft
         ∧ (is_Some (fut_result ft) → fut_result ft' = fut_result ft).
Proof.
  intros Hwf Hstep Hft. destruct e as [job | h o | cfg | jid];
    [| | simpl in Hstep; inversion Hstep; simpl; by exists ft ..].
  - simpl in Hstep. inversion Hstep. rewrite dispatch_unfold. simpl.
    exists ft. by rewrite lookup_app_l by (by eapply lookup_lt_Some).
  - destruct (step_complete _ _ _ _ Hwf Hstep) as (job & ft0 & Hft0 & Hres & _ & ->).
    simpl. destruct (decide (h = handle)) as [-> | Hne].
    + rewrite Hft in Hft0. inversion Hft0; subst ft0.
      rewrite list_lookup_insert_eq by (by eapply lookup_lt_Some).
      eexists. repeat split; try done. simpl. rewrite Hres. by intros [? ?].
    + rewrite list_lookup_insert_ne by done. by exists ft.
Qed.

Lemma run_future_stable guard evs d d' handle ft :
  run guard evs d = Some d' -> futures_wf d ->
  executor_futures d !! handle = Some ft ->
  ∃ ft', executor_futures d' !! handle = Some ft'
         ∧ request ft' = request ft ∧ done_callbacks ft' = done_callbacks ft.
Proof.
  revert d ft. induction evs as [| e evs IH]; intros d ft Hrun Hwf Hft; simpl in Hrun.
  - inversion Hrun; subst. by exists ft.
  - destruct (guard e d); [| done].
    destruct (step e d) as [d1|] eqn:Hstep; [| done].
    destruct (step_future_stable _ _ _ _ _ Hwf Hstep Hft) as (ft1 & Hft1 & Hreq & Hcbs & _).
    destruct (IH d1 ft1 Hrun) as (ft' & Hft' & Hreq' & Hcbs');
      [by eapply step_futures_wf | done |].
    exists ft'. repeat split; [done | congruence | congruence].
Qed.

(** *** The handle table under the contract of [dispatch] *)

Lemma step_table_inv e d d' :
  futures_wf d -> dispatch_contract e d = true -> step e d = Some d' ->
  table_inv d -> table_inv d'.
Proof.
  intros Hwf Hpre Hstep [Htab Hfut]. destruct e as [job | h o | cfg | jid].
  - simpl in Hstep, Hpre. inversion Hstep as [Heq]. clear Hstep Heq.
    apply andb_prop in Hpre as [_ Hnew]. apply negb_true_iff in Hnew.
    unfold _is_dispatched in Hnew. apply bool_decide_eq_false in Hnew.
    rewrite <- eq_None_not_Some in Hnew.
    rewrite dispatch_unfold. split; simpl.
    + intros jid handle Hlook.
      apply lookup_insert_Some in Hlook as [[<- <-] | [Hne Hlook]].
      * exists (dispatched_future job d). by rewrite lookup_snoc_last.
      * destruct (Htab _ _ Hlook) as (ft & Hft & Hres & Hjid).
        exists ft. by rewrite lookup_app_l by (by eapply lookup_lt_Some).
    + intros handle ft Hlook Hres.
      apply lookup_app_Some in Hlook as [Hlook | [Hge Hlook]].
      * pose proof (Hfut _ _ Hlook Hres) as Hentry.
        rewrite lookup_insert_ne; [done |]. intros Heq. rewrite <- Heq in Hentry.
        by rewrite Hnew in Hentry.
      * apply list_lookup_singleton_Some in Hlook as [Hidx <-]. simpl.
        rewrite lookup_insert_eq. f_equal. lia.
  - destruct (step_complete _ _ _ _ Hwf Hstep) as (job & ft0 & Hft0 & Hres0 & [_ Hjob] & ->).
    pose proof (Hfut _ _ Hft0 Hres0) as Hentry0. rewrite Hjob in Hentry0.
    split; simpl.
    + intros jid handle Hlook.
      apply lookup_delete_Some in Hlook as [Hne Hlook].
      destruct (Htab _ _ Hlook) as (ft & Hft & Hres & Hjid).
      exists ft. rewrite list_lookup_insert_ne; [done |].
      intros ->. rewrite Hft in Hft0. inversion Hft0; subst ft0. congruence.
    + intros handle ft Hlook Hres.
      apply list_lookup_insert_Some in Hlook as [(-> & <- & _) | [Hne Hlook]];
        [done |].
      pose proof (Hfut _ _ Hlook Hres) as Hentry.
      rewrite lookup_delete_ne; [done |].
      intros Heq. rewrite <- Heq in Hentry. congruence.
  - simpl in Hstep. inversion Hstep. by split.
  - simpl in Hstep, Hpre. inversion Hstep as [Heq]. clear Hstep Heq.
    apply negb_true_iff, bool_decide_eq_false in Hpre.
    rewrite <- eq_None_not_Some in Hpre.
    unfold _remove_dispatched_job, _pop_dispatched_process. split; simpl;
      by rewrite (delete_id _ _ Hpre).
Qed.

Lemma removals_app handle effs effs' :
  removals handle (effs ++ effs') = removals handle effs + removals handle effs'.
Proof. unfold removals. by rewrite List.filter_app, length_app. Qed.

Lemma step_removed_once e d d' :
  futures_wf d -> table_inv d -> dispatch_contract e d = true -> step e d = Some d' ->
  removed_once d -> removed_once d'.
Proof.
  intros Hwf [Htab Hfut] Hpre Hstep Hinv handle. specialize (Hinv handle).
  destruct e as [job | h o | cfg | jid].
  - simpl in Hstep. inversion Hstep as [Heq]. clear Hstep Heq.
    rewrite dispatch_unfold. simpl. rewrite removals_app, Hinv.
    unfold removals. simpl.
    destruct (executor_futures d !! handle) as [ft|] eqn:Hft.
    + rewrite lookup_app_l, Hft by (by eapply lookup_lt_Some). lia.
    + apply lookup_ge_None in Hft.
      destruct (decide (handle = length (executor_futures d))) as [-> | Hne].
      * by rewrite lookup_snoc_last.
      * rewrite lookup_ge_None_2; [done |]. rewrite length_app. simpl. lia.
  - destruct (step_complete _ _ _ _ Hwf Hstep) as (job & ft0 & Hft0 & Hres0 & [_ Hjob] & ->).
    pose proof (Hfut _ _ Hft0 Hres0) as Hentry0. rewrite Hjob in Hentry0.
    simpl. rewrite removals_app, Hinv, Hentry0. unfold removals. simpl.
    destruct (decide (h = handle)) as [-> | Hne].
    + rewrite list_lookup_insert_eq by (by eapply lookup_lt_Some).
      rewrite Hft0, Hres0. simpl. rewrite bool_decide_eq_true_2 by done.
      by destruct o.
    + rewrite list_lookup_insert_ne by done.
      rewrite bool_decide_eq_false_2 by done. destruct o; simpl; lia.
  - simpl in Hstep. inversion Hstep. done.
  - simpl in Hstep, Hpre. inversion Hstep as [Heq]. clear Hstep Heq.
    apply negb_true_iff, bool_decide_eq_false in Hpre.
    rewrite <- eq_None_not_Some in Hpre.
    unfold _remove_dispatched_job, _pop_dispatched_process. simpl.
    rewrite removals_app, Hinv, Hpre. unfold removals. simpl. lia.
Qed.

Lemma run_contract_invariants evs d d' :
  run dispatch_contract evs d = Some d' ->
  futures_wf d -> table_inv d -> removed_once d ->
  futures_wf d' ∧ table_inv d' ∧ removed_once d'.
Proof.
  revert d. induction evs as [| e evs IH]; intros d Hrun Hwf Htab Hrem; simpl in Hrun.
  - by inversion Hrun; subst.
  - destruct (dispatch_contract e d) eqn:Hpre; [| done].
    destruct (step e d) as [d1|] eqn:Hstep; [| done].
    apply (IH d1 Hrun);
      [by eapply step_futures_wf | by eapply step_table_inv
      | by eapply step_removed_once].
Qed.

Lemma init_removed_once cfg js d : init cfg js = Some d -> removed_once d.
Proof.
  intros Hinit handle. unfold init in Hinit. case_decide; [done |].
  by inversion Hinit.
Qed.

Lemma can_execute_spec d :
  _can_execute d = true ↔ (_nb_available_workers d > 0)%Z.
Proof. unfold _can_execute. apply bool_decide_eq_true. Qed.

(** *** The claims about the dispatcher *)

(** C2: the counter starts at [max_workers]; along every sequence of
    dispatch and completion events in which each dispatch happens while
    [can_execute()] is true it stays within [0, max_workers]; and as long as
    no worker has finished it is [max_workers] minus the number of
    dispatches. *)
Theorem available_workers_within_bounds cfg js d0 evs d :
  init cfg js = Some d0 ->
  run capacity_gate evs d0 = Some d ->
  _nb_available_workers d0 = executor_max_workers d0
  ∧ (0 <= _nb_available_workers d <= executor_max_workers d0)%Z
  ∧ (no_completion evs = true →
       _nb_available_workers d
       = (executor_max_workers d0 - Z.of_nat (dispatches evs))%Z).
Proof.
  intros Hinit Hrun.
  destruct (init_state _ _ _ Hinit) as (Hpos & Hnb & _ & _).
  destruct (init_invariants _ _ _ Hinit) as (Hwf0 & Hslots0 & _).
  destruct (run_invariants _ _ _ _ Hrun Hwf0 Hslots0) as (_ & Hslots & Hmax).
  assert (0 <= _nb_available_workers d)%Z
    by (apply (run_capacity_nonneg _ _ _ Hrun Hwf0); lia).
  unfold slots_inv in Hslots. repeat split; [done | done | lia |].
  intros Hnone. rewrite (run_without_completion _ _ _ _ Hrun Hnone). lia.
Qed.

(** C7: the request handed to the worker carries the serialization of the
    global configuration as it was when [_dispatch] was called; whatever
    happens afterwards, changes of the global configuration included, the
    request of that job keeps this string. *)
Theorem request_keeps_config_snapshot cfg js d0 before d job afterwards d' :
  init cfg js = Some d0 ->
  run unguarded before d0 = Some d ->
  run unguarded afterwards (_dispatch job d) = Some d' ->
  ∃ ft, executor_futures d' !! length (executor_futures d) = Some ft
        ∧ request ft = {| req_job_id := job_id job;
                          req_task := job_task job;
                          config_as_string := _serialize (applied_config d) |}.
Proof.
  intros Hinit Hbefore Hafter.
  destruct (init_invariants _ _ _ Hinit) as (Hwf0 & Hslots0 & _).
  destruct (run_invariants _ _ _ _ Hbefore Hwf0 Hslots0) as (Hwf & _ & _).
  assert (futures_wf (_dispatch job d)) as Hwf1
    by (by apply (step_futures_wf (Dispatch job) d)).
  assert (executor_futures (_dispatch job d) !! length (executor_futures d)
          = Some (dispatched_future job d)) as Hnew
    by (rewrite dispatch_unfold; simpl; apply lookup_snoc_last).
  destruct (run_future_stable _ _ _ _ _ _ Hafter Hwf1 Hnew) as (ft & Hft & Hreq & _).
  by exists ft.
Qed.

(** C8: as long as [dispatch] is called within its contract, a job has at
    most one future in flight; [_dispatch] registers exactly one handle, the
    new one, under the job's id and makes [_is_dispatched] true; the handle
    of a future is removed from the table once, when its worker finishes
    and not before, and [_is_dispatched] is false afterwards. *)
Theorem one_live_handle_per_job cfg js d0 evs d :
  init cfg js = Some d0 ->
  run dispatch_contract evs d0 = Some d ->
  (∀ h1 h2 ft1 ft2,
     executor_futures d !! h1 = Some ft1 → executor_futures d !! h2 = Some ft2 →
     fut_result ft1 = None → fut_result ft2 = None →
     req_job_id (request ft1) = req_job_id (request ft2) → h1 = h2)
  ∧ (∀ job, dispatch_contract (Dispatch job) d = true →
       _is_dispatched (job_id job) d = false
       ∧ _is_dispatched (job_id job) (_dispatch job d) = true
       ∧ _dispatched_processes (_dispatch job d)
         = <[job_id job := length (executor_futures d)]> (_dispatched_processes d))
  ∧ (∀ h ft, executor_futures d !! h = Some ft →
       removals h (effects d) = match fut_result ft with Some _ => 1 | None => 0 end
       ∧ (fut_result ft = None →
            _dispatched_processes d !! req_job_id (request ft) = Some h
            ∧ ∀ o, ∃ d', worker_finishes h o d = Some d'
                 ∧ _is_dispatched (req_job_id (request ft)) d' = false
                 ∧ removals h (effects d') = 1)).
Proof.
  intros Hinit Hrun.
  destruct (init_invariants _ _ _ Hinit) as (Hwf0 & _ & Htab0).
  destruct (run_contract_invariants _ _ _ Hrun Hwf0 Htab0 (init_removed_once _ _ _ Hinit))
    as (Hwf & Htab & Hrem).
  split; [| split].
  - intros h1 h2 ft1 ft2 Hft1 Hft2 Hres1 Hres2 Hsame.
    destruct Htab as [_ Hfut].
    pose proof (Hfut _ _ Hft1 Hres1) as H1. pose proof (Hfut _ _ Hft2 Hres2) as H2.
    congruence.
  - intros job Hpre. simpl in Hpre. apply andb_prop in Hpre as [_ Hnew].
    apply negb_true_iff in Hnew. split; [done |].
    rewrite dispatch_unfold. unfold _is_dispatched. simpl.
    split; [| done]. apply bool_decide_eq_true. by rewrite lookup_insert_eq.
  - intros h ft Hft. pose proof (Hrem h) as Hcount. rewrite Hft in Hcount.
    split; [done |]. intros Hres. destruct Htab as [_ Hfut].
    pose proof (Hfut _ _ Hft Hres) as Hentry. split; [done |]. intros o.
    destruct (Hwf _ _ Hft) as (job & Hcbs & Hjob).
    exists (finished job h ft o d). split; [by apply finish_unfold |].
    rewrite Hjob. unfold _is_dispatched. simpl. split.
    + apply bool_decide_eq_false. rewrite lookup_delete_eq. by intros [? ?].
    + rewrite removals_app, Hcount, Hres, <- Hjob, Hentry. unfold removals. simpl.
      rewrite bool_decide_eq_true_2 by done. by destruct o.
Qed.

End Proofs.

(** C2 at work: two dispatches on two workers. *)
Lemma available_workers_within_bounds_witness :
  _nb_available_workers (Samples.fresh_dispatcher Samples.two_workers)
  = executor_max_workers (Samples.fresh_dispatcher Samples.two_workers)
  ∧ (0 <= _nb_available_workers Samples.both_in_flight
       <= executor_max_workers (Samples.fresh_dispatcher Samples.two_workers))%Z
  ∧ (no_completion Samples.dispatch_A_and_B = true →
       _nb_available_workers Samples.both_in_flight
       = (executor_max_workers (Samples.fresh_dispatcher Samples.two_workers)
          - Z.of_nat (dispatches Samples.dispatch_A_and_B))%Z).
Proof.
  apply (available_workers_within_bounds Samples.two_workers ∅
           (Samples.fresh_dispatcher Samples.two_workers)
           Samples.dispatch_A_and_B
           Samples.both_in_flight);
    vm_compute; reflexivity.
Defined.

(** C7 at work: the configuration changes after jobs A and B were
    dispatched; the request of A still carries the first configuration. *)
Lemma request_keeps_config_snapshot_witness :
  ∃ ft, executor_futures Samples.A_then_B
          !! length (executor_futures (Samples.fresh_dispatcher Samples.two_workers))
        = Some ft
        ∧ request ft =
          {| req_job_id := job_id Samples.job_A;
             req_task := job_task Samples.job_A;
             config_as_string :=
               _serialize (applied_config (Samples.fresh_dispatcher Samples.two_workers)) |}.
Proof.
  apply (request_keeps_config_snapshot Samples.two_workers ∅
           (Samples.fresh_dispatcher Samples.two_workers) []
           (Samples.fresh_dispatcher Samples.two_workers) Samples.job_A
           [Dispatch Samples.job_B; SetConfig Samples.one_worker]
           Samples.A_then_B);
    vm_compute; reflexivity.
Defined.

(** C8 at work: with jobs A and B in flight, the worker of A finishes. *)
Lemma one_live_handle_per_job_witness :
  _dispatched_processes Samples.both_in_flight !! "JOB_A" = Some 0
  ∧ ∀ o, ∃ d', worker_finishes 0 o Samples.both_in_flight = Some d'
         ∧ _is_dispatched "JOB_A" d' = false
         ∧ removals 0 (effects d') = 1.
Proof.
  assert (init Samples.two_workers ∅
          = Some (Samples.fresh_dispatcher Samples.two_workers)) as Hinit
    by (vm_compute; reflexivity).
  assert (run dispatch_contract Samples.dispatch_A_and_B
            (Samples.fresh_dispatcher Samples.two_workers)
          = Some Samples.both_in_flight) as Hrun
    by (vm_compute; reflexivity).
  destruct (one_live_handle_per_job Samples.two_workers ∅
              (Samples.fresh_dispatcher Samples.two_workers)
              Samples.dispatch_A_and_B
              Samples.both_in_flight Hinit Hrun) as (_ & _ & Hdone).
  assert (executor_futures Samples.both_in_flight !! 0
          = Some (dispatched_future Samples.job_A
                    (Samples.fresh_dispatcher Samples.two_workers))) as Hft
    by (vm_compute; reflexivity).
  destruct (Hdone 0 _ Hft) as [_ Hlive].
  exact (Hlive eq_refl).
Defined.

(** C8 as stated fails: [_dispatch] does not look into the table.  Under
    the gate of [can_execute()] alone job A is dispatched twice: two futures
    of the job are in flight and the table holds the second handle only;
    when the worker of the first one finishes, the job is no longer
    dispatched although its second future is in flight.  And
    [_remove_dispatched_job] removes the handle of a future that has not
    finished. *)
Lemma job_dispatched_twice :
  init Samples.two_workers ∅ = Some (Samples.fresh_dispatcher Samples.two_workers)
  ∧ (∃ d, run capacity_gate [Dispatch Samples.job_A; Dispatch Samples.job_A]
            (Samples.fresh_dispatcher Samples.two_workers) = Some d
          ∧ (fut_result <$> executor_futures d) = [None; None]
          ∧ (req_job_id ∘ request <$> executor_futures d) = ["JOB_A"; "JOB_A"]
          ∧ _dispatched_processes d !! "JOB_A" = Some 1
          ∧ ∃ d', worker_finishes 0 (Returned []) d = Some d'
                  ∧ _is_dispatched "JOB_A" d' = false
                  ∧ (fut_result <$> executor_futures d') = [Some (Returned []); None])
  ∧ (∃ d, run capacity_gate [Dispatch Samples.job_A; RemoveDispatched "JOB_A"]
            (Samples.fresh_dispatcher Samples.two_workers) = Some d
          ∧ (fut_result <$> executor_futures d) = [None]
          ∧ removals 0 (effects d) = 1
          ∧ _is_dispatched "JOB_A" d = false).
Proof.
  split; [vm_compute; reflexivity |]. split.
  - eexists. split; [vm_compute; reflexivity |].
    repeat split; try (vm_compute; reflexivity).
    eexists. split; [vm_compute; reflexivity |].
    repeat split; vm_compute; reflexivity.
  - eexists. split; [vm_compute; reflexivity |].
    repeat split; vm_compute; reflexivity.
Qed.

End DispatcherProofs.

(** * The dispatcher and the thread of the pool *)

Module ThreadsProofs.
Import Dispatcher Threads DispatcherProofs.

Section Proofs.
Context {Config : Type} `{!GlobalConfig Config}.
Implicit Types (s : Threads Config) (d : Dispatcher Config) (ft : Future).

Lemma invoke_callback_futures cb o d :
  executor_futures (invoke_callback cb o d) = executor_futures d.
Proof. destruct d, cb as [| job], o; reflexivity. Qed.

Lemma add_done_callback_futures h cb d :
  executor_futures (Dispatcher.add_done_callback h cb d) =
  match executor_futures d !! h with
  | Some ft =>
      match fut_result ft with
      | None => <[h := {| request := request ft; fut_result := None;
                          done_callbacks := done_callbacks ft ++ [cb] |}]>
                  (executor_futures d)
      | Some _ => executor_futures d
      end
  | None => executor_futures d
  end.
Proof.
  unfold Dispatcher.add_done_callback.
  destruct (executor_futures d !! h) as [ft |]; [| done].
  destruct (fut_result ft); [apply invoke_callback_futures | by destruct d].
Qed.

Lemma called_snoc h h' cb (cs : list (nat * done_callback)) :
  (filter (fun c => c.1 = h) (cs ++ [(h', cb)])).*2
  = (filter (fun c => c.1 = h) cs).*2 ++ (if decide (h' = h) then [cb] else []).
Proof.
  rewrite filter_app, fmap_app. f_equal.
  destruct (decide (h' = h)) as [-> | Hne].
  - by rewrite filter_cons_True.
  - by rewrite filter_cons_False.
Qed.

Lemma job_of_created job (cfg : string) :
  job_of {| request := {| req_job_id := job_id job; req_task := job_task job;
                          config_as_string := cfg |};
            fut_result := None; done_callbacks := [] |} = job.
Proof. by destruct job. Qed.

(** What one step does to one future. *)
Lemma step_view e s s' h :
  frame_ok s -> step e s = Some s' ->
  (executor_futures (dispatcher s') !! h = executor_futures (dispatcher s) !! h
   ∧ invoking s' !! h = invoking s !! h ∧ called h s' = called h s
   ∧ attached h s' = attached h s ∧ sets_between_callbacks h e s = false)
  ∨ (executor_futures (dispatcher s) !! h = None
     ∧ (∃ ft, executor_futures (dispatcher s') !! h = Some ft
              ∧ fut_result ft = None ∧ done_callbacks ft = [])
     ∧ invoking s' !! h = invoking s !! h ∧ called h s' = called h s
     ∧ attached h s' = 0 ∧ sets_between_callbacks h e s = false)
  ∨ (∃ ft cb, executor_futures (dispatcher s) !! h = Some ft
       ∧ callbacks_of ft !! attached h s = Some cb
       ∧ attached h s' = S (attached h s)
       ∧ invoking s' !! h = invoking s !! h
       ∧ sets_between_callbacks h e s = false
       ∧ ((fut_result ft = None
           ∧ executor_futures (dispatcher s') !! h
             = Some {| request := request ft; fut_result := None;
                       done_callbacks := done_callbacks ft ++ [cb] |}
           ∧ called h s' = called h s)
          ∨ (is_Some (fut_result ft)
             ∧ executor_futures (dispatcher s') !! h = Some ft
             ∧ called h s' = called h s ++ [cb])))
  ∨ (∃ ft o, executor_futures (dispatcher s) !! h = Some ft
       ∧ fut_result ft = None
       ∧ executor_futures (dispatcher s') !! h
         = Some {| request := request ft; fut_result := Some o;
                   done_callbacks := done_callbacks ft |}
       ∧ invoking s' !! h = Some (done_callbacks ft)
       ∧ called h s' = called h s ∧ attached h s' = attached h s
       ∧ sets_between_callbacks h e s = bool_decide (attached h s = 1))
  ∨ (∃ ft cb rest, executor_futures (dispatcher s) !! h = Some ft
       ∧ is_Some (fut_result ft)
       ∧ invoking s !! h = Some (cb :: rest)
       ∧ executor_futures (dispatcher s') !! h = Some ft
       ∧ invoking s' !! h = Some rest
       ∧ called h s' = called h s ++ [cb]
       ∧ attached h s' = attached h s
       ∧ sets_between_callbacks h e s = false).
Proof.
  destruct s as [d m inv cs]. intros Hframe Hstep.
  destruct e as [job | | e | h0 o | h0 | cfg | jid]; simpl in Hstep.
  - (* Enter *)
    unfold enter in Hstep. simpl in Hstep. destruct m; [done |].
    inversion Hstep; subst s'. left. by destruct d.
  - (* Next *)
    unfold next in Hstep. simpl in Hstep.
    destruct m as [[job | job f | job f | job f] |]; [| | | | done].
    + (* lines 55 and 56 *)
      inversion Hstep; subst s'. clear Hstep. unfold attached, called. simpl.
      destruct d as [c mx fs tb nb js effs]. simpl.
      destruct (decide (length fs = h)) as [<- | Hne].
      * right. left. rewrite lookup_snoc_last.
        split; [by apply lookup_ge_None_2 |]. split; [by eexists |]. done.
      * left. repeat split; try done.
        destruct (decide (h < length fs)) as [Hlt | Hge].
        -- by rewrite lookup_app_l.
        -- rewrite !lookup_ge_None_2; [done | lia |].
           rewrite length_app. simpl. lia.
    + (* line 58 *)
      inversion Hstep; subst s'. left. by destruct d.
    + (* line 59 *)
      inversion Hstep; subst s'. clear Hstep.
      destruct Hframe as (ft & Hft & Hjob). simpl in Hft.
      unfold attached, called, add_done_callback, result_of. simpl.
      destruct (decide (f = h)) as [-> | Hne].
      * right. right. left. exists ft, release_worker_cb.
        split; [done |]. split; [done |]. split; [done |]. split; [done |].
        split; [done |].
        rewrite add_done_callback_futures, Hft. simpl.
        destruct (fut_result ft) as [o |] eqn:Hres.
        -- right. split; [by eexists |].
           split; [done |]. rewrite called_snoc. by rewrite decide_True.
        -- left. split; [done |].
           rewrite list_lookup_insert_eq by (by eapply lookup_lt_Some).
           split; [done |]. by rewrite app_nil_r.
      * left. split.
        { rewrite add_done_callback_futures, Hft.
          destruct (fut_result ft); [done | by rewrite list_lookup_insert_ne]. }
        split; [done |]. split; [| done].
        rewrite Hft. simpl. destruct (fut_result ft).
        -- rewrite called_snoc. by rewrite decide_False, app_nil_r.
        -- by rewrite app_nil_r.
    + (* line 61 *)
      inversion Hstep; subst s'. clear Hstep.
      destruct Hframe as (ft & Hft & Hjob). simpl in Hft.
      unfold attached, called, add_done_callback, result_of. simpl.
      destruct (decide (f = h)) as [-> | Hne].
      * right. right. left. exists ft, (update_job_status_from_future_cb job).
        split; [done |]. split; [by unfold callbacks_of; rewrite Hjob |].
        split; [done |]. split; [done |]. split; [done |].
        rewrite add_done_callback_futures, Hft. simpl.
        destruct (fut_result ft) as [o |] eqn:Hres.
        -- right. split; [by eexists |].
           split; [done |]. rewrite called_snoc. by rewrite decide_True.
        -- left. split; [done |].
           rewrite list_lookup_insert_eq by (by eapply lookup_lt_Some).
           split; [done |]. by rewrite app_nil_r.
      * left. split.
        { rewrite add_done_callback_futures, Hft.
          destruct (fut_result ft); [done | by rewrite list_lookup_insert_ne]. }
        split; [done |]. split; [| done].
        rewrite Hft. simpl. destruct (fut_result ft).
        -- rewrite called_snoc. by rewrite decide_False, app_nil_r.
        -- by rewrite app_nil_r.
  - (* SubmitRaises *)
    unfold submit_raises in Hstep. simpl in Hstep.
    destruct m as [[job | job f | job f | job f] |]; try done.
    inversion Hstep; subst s'. by left.
  - (* SetResult *)
    unfold set_result in Hstep. simpl in Hstep.
    destruct (executor_futures d !! h0) as [ft |] eqn:Hft; [| done].
    destruct (fut_result ft) eqn:Hres; [done |].
    inversion Hstep; subst s'. clear Hstep.
    destruct d as [c mx fs tb nb js effs]. simpl in *.
    destruct (decide (h0 = h)) as [-> | Hne].
    + right. right. right. left. exists ft, o.
      rewrite list_lookup_insert_eq by (by eapply lookup_lt_Some).
      rewrite lookup_insert_eq. repeat split; try done.
      unfold attached. simpl.
      destruct m as [[job | job f | job f | job f] |]; simpl; try done;
        rewrite ?bool_decide_eq_true_2 by done; simpl;
        case_decide; try done.
      * by rewrite bool_decide_eq_true_2.
      * by rewrite bool_decide_eq_false_2.
    + left. rewrite list_lookup_insert_ne by done.
      rewrite lookup_insert_ne by done. repeat split; try done.
      destruct m as [[job | job f | job f | job f] |]; simpl; try done.
      by rewrite bool_decide_eq_false_2.
  - (* Invoke *)
    unfold invoke_next in Hstep. simpl in Hstep.
    destruct (inv !! h0) as [[| cb rest] |] eqn:Hinv; try done.
    destruct (result_of h0 d) as [o |] eqn:Hres; [| done].
    inversion Hstep; subst s'. clear Hstep.
    unfold called, attached. simpl. rewrite invoke_callback_futures.
    unfold result_of in Hres.
    destruct (executor_futures d !! h0) as [ft |] eqn:Hft; [| done]. simpl in Hres.
    rewrite called_snoc.
    destruct (decide (h0 = h)) as [-> | Hne].
    + do 4 right. exists ft, cb, rest. rewrite lookup_insert_eq.
      repeat split; try done; by eexists.
    + left. rewrite lookup_insert_ne by done. by rewrite app_nil_r.
  - (* Configure *)
    inversion Hstep; subst s'. left. by destruct d.
  - (* Withdraw *)
    inversion Hstep; subst s'. left. by destruct d.
Qed.


Lemma job_of_set ft r cbs :
  job_of {| request := request ft; fut_result := r; done_callbacks := cbs |}
  = job_of ft.
Proof. done. Qed.

Local Arguments callbacks_of : simpl never.
Local Arguments job_of : simpl never.


Lemma step_request e s s' h ft :
  frame_ok s -> step e s = Some s' ->
  executor_futures (dispatcher s) !! h = Some ft ->
  ∃ ft', executor_futures (dispatcher s') !! h = Some ft' ∧ request ft' = request ft.
Proof.
  intros Hframe Hstep Hft.
  destruct (step_view e s s' h Hframe Hstep)
    as [(Hfs & _) | [(Hnone & _) | [(ft0 & cb & Hft0 & _ & _ & _ & _ & Hcase)
       | [(ft0 & o & Hft0 & _ & Hft' & _) | (ft0 & cb & rest & Hft0 & _ & _ & Hft' & _)]]]].
  - exists ft. by rewrite Hfs.
  - by rewrite Hnone in Hft.
  - rewrite Hft in Hft0. inversion Hft0; subst ft0.
    destruct Hcase as [(_ & Hft' & _) | (_ & Hft' & _)]; eexists; by split.
  - rewrite Hft in Hft0. inversion Hft0; subst ft0. eexists; by split.
  - rewrite Hft in Hft0. inversion Hft0; subst ft0. eexists; by split.
Qed.

Lemma step_frame_ok e s s' :
  frame_ok s -> step e s = Some s' -> frame_ok s'.
Proof.
  intros Hframe Hstep.
  assert (∀ job f, (∃ ft, executor_futures (dispatcher s) !! f = Some ft ∧ job_of ft = job) →
                   ∃ ft, executor_futures (dispatcher s') !! f = Some ft ∧ job_of ft = job)
    as Hkeep.
  { intros job f (ft & Hft & Hjob).
    destruct (step_request _ _ _ _ _ Hframe Hstep Hft) as (ft' & Hft' & Hreq).
    exists ft'. split; [done |]. unfold job_of in *. by rewrite Hreq. }
  destruct s as [d m inv cs].
  destruct e as [job | | e | h0 o | h0 | cfg | jid]; simpl in Hstep.
  - unfold enter in Hstep. simpl in Hstep. destruct m; [done |].
    by inversion Hstep.
  - unfold next in Hstep. simpl in Hstep. unfold frame_ok in Hframe. simpl in Hframe.
    destruct m as [[job | job f | job f | job f] |]; [| | | | done];
      inversion Hstep; subst s'; unfold frame_ok; simpl; simpl in Hkeep.
    + eexists. split; [apply lookup_snoc_last |]. apply job_of_created.
    + by apply Hkeep.
    + by apply Hkeep.
    + done.
  - unfold submit_raises in Hstep. simpl in Hstep.
    destruct m as [[job | job f | job f | job f] |]; try done.
    by inversion Hstep.
  - unfold set_result in Hstep. simpl in Hstep.
    destruct (executor_futures d !! h0) as [ft |] eqn:Hft; [| done].
    destruct (fut_result ft) eqn:Hres; [done |].
    inversion Hstep; subst s'. unfold frame_ok in *. simpl in *.
    destruct m as [[job | job f | job f | job f] |]; try done; by apply Hkeep.
  - unfold invoke_next in Hstep. simpl in Hstep.
    destruct (inv !! h0) as [[| cb rest] |] eqn:Hinv; try done.
    destruct (result_of h0 d) as [o |] eqn:Hres; [| done].
    inversion Hstep; subst s'. unfold frame_ok in *. simpl in *.
    destruct m as [[job | job f | job f | job f] |]; try done; by apply Hkeep.
  - inversion Hstep; subst s'. unfold frame_ok in *. simpl in *.
    destruct m as [[job | job f | job f | job f] |]; try done; by apply Hkeep.
  - inversion Hstep; subst s'. unfold frame_ok in *. simpl in *.
    destruct m as [[job | job f | job f | job f] |]; try done; by apply Hkeep.
Qed.

(** *** The states of one future under each kind of step *)











(** *** Runs *)

Lemma run_frame_ok evs s s' :
  frame_ok s -> run evs s = Some s' -> frame_ok s'.
Proof.
  revert s. induction evs as [| e evs IH]; intros s Hframe Hrun; simpl in Hrun.
  - by inversion Hrun; subst.
  - destruct (step e s) as [s1 |] eqn:Hstep; [| done].
    apply (IH s1); [by eapply step_frame_ok | done].
Qed.




Lemma start_in_order d h : in_order h (start d) ∨ executor_futures d !! h ≠ None.
Proof.
  unfold in_order. simpl. destruct (executor_futures d !! h); [by right | by left].
Qed.


(** *** Threads that do not interleave *)

(** The events of the dispatcher are the runs of the two threads in which
    nothing comes in between: a call of [_dispatch] that runs from line 54
    to line 61 is the event [Dispatch]. *)
Lemma uninterrupted_dispatch job s :
  main s = None ->
  run [Enter job; Next; Next; Next; Next] s
  = Some (with_dispatcher (_dispatch job (dispatcher s)) s).
Proof.
  destruct s as [d m inv cs]. simpl. intros ->.
  destruct d as [c mx fs tb nb js effs].
  unfold enter, next, add_done_callback, result_of, with_dispatcher, at_line,
    _dispatch, submit, _set_dispatched_processes, Dispatcher.add_done_callback.
  cbn. rewrite !lookup_snoc_last. cbn.
  rewrite !insert_snoc_last, !lookup_snoc_last. cbn.
  by rewrite !app_nil_r.
Qed.

(** A result that is set when [_dispatch] has returned, followed by the two
    calls of [_invoke_callbacks], is the event [Complete]. *)
Lemma uninterrupted_completion handle o s ft job :
  executor_futures (dispatcher s) !! handle = Some ft ->
  fut_result ft = None ->
  done_callbacks ft = [release_worker_cb; update_job_status_from_future_cb job] ->
  ∃ s', run [SetResult handle o; Invoke handle; Invoke handle] s = Some s'
        ∧ worker_finishes handle o (dispatcher s) = Some (dispatcher s')
        ∧ main s' = main s
        ∧ calls s' = calls s ++ [(handle, release_worker_cb);
                                 (handle, update_job_status_from_future_cb job)]
        ∧ to_call handle s' = [].
Proof.
  destruct s as [d m inv cs]. simpl. intros Hft Hres Hcbs.
  unfold set_result. simpl. rewrite Hft, Hres. simpl.
  unfold invoke_next, result_of. simpl. rewrite lookup_insert_eq, Hcbs.
  destruct d as [c mx fs tb nb js effs]. simpl in *.
  rewrite list_lookup_insert_eq by (by eapply lookup_lt_Some). simpl.
  rewrite lookup_insert_eq. simpl.
  rewrite list_lookup_insert_eq by (by eapply lookup_lt_Some). simpl.
  eexists. split; [done |]. unfold worker_finishes, to_call. simpl.
  rewrite Hft, Hres, Hcbs. simpl. rewrite lookup_insert_eq.
  repeat split; try done. by rewrite <- app_assoc.
Qed.

(** *** The order of the two callbacks *)





End Proofs.




End ThreadsProofs.

(** * The dispatcher and its process pool *)

Module PoolProofs.
Import Dispatcher DispatcherProofs Pool.

Section Proofs.
Context {Config : Type} `{!GlobalConfig Config}.
Implicit Types (p : Pool Config) (d : Dispatcher Config) (job : Job).

(** An event of the dispatcher moves a slot between the counter and the
    futures in flight. *)
Lemma step_slots_sum e d d' :
  futures_wf d -> Dispatcher.step e d = Some d' ->
  (_nb_available_workers d' + Z.of_nat (length (in_flight d'))
   = _nb_available_workers d + Z.of_nat (length (in_flight d)))%Z.
Proof.
  intros Hwf Hstep.
  destruct e as [job | handle o | cfg | jid];
    [| | simpl in Hstep; inversion Hstep; done ..].
  - simpl in Hstep. inversion Hstep as [Heq]. rewrite in_flight_dispatch.
    rewrite dispatch_unfold. simpl. lia.
  - destruct (step_complete _ _ _ _ Hwf Hstep) as (job & ft & Hft & Hres & _ & ->).
    pose proof (in_flight_finished job handle ft o d Hft Hres). simpl. lia.
Qed.










(** The slots along a run: a refused call takes one for good. *)
Lemma run_slots evs p p' :
  futures_wf (dispatcher p) -> run evs p = Some p' ->
  (_nb_available_workers (dispatcher p')
   + Z.of_nat (length (in_flight (dispatcher p'))) + Z.of_nat (refusals evs)
   = _nb_available_workers (dispatcher p)
     + Z.of_nat (length (in_flight (dispatcher p))))%Z.
Proof.
  unfold refusals.
  revert p. induction evs as [| e evs IH]; intros p Hwf Hrun; simpl in Hrun.
  - inversion Hrun; subst. simpl. lia.
  - destruct (step e p) as [p1 |] eqn:Hstep; [| done].
    destruct p as [d ex done]. simpl in *.
    destruct e as [e | job e | h | h]; simpl in Hstep; simpl.
    + destruct (Dispatcher.step e d) as [d' |] eqn:Hd; [| done].
      inversion Hstep; subst p1. clear Hstep.
      pose proof (step_futures_wf _ _ _ Hwf Hd) as Hwf1.
      pose proof (IH {| dispatcher := d'; executing := finishes e ex;
                        executed := done |} Hwf1 Hrun) as Hrest. simpl in Hrest.
      pose proof (step_slots_sum _ _ _ Hwf Hd). lia.
    + inversion Hstep; subst p1. clear Hstep.
      assert (futures_wf (_dispatch_refused job e d).1) as Hwf1
        by (by destruct d).
      pose proof (IH {| dispatcher := (_dispatch_refused job e d).1;
                        executing := ex; executed := done |} Hwf1 Hrun) as Hrest.
      destruct d as [c mx fs tb nb js effs]. simpl in *.
      unfold in_flight in *. simpl in *. lia.
    + destruct (queued h _ && idle_process _); [| done].
      inversion Hstep; subst p1.
      pose proof (IH {| dispatcher := d; executing := ex ++ [h];
                        executed := done |} Hwf Hrun) as Hrest. simpl in Hrest. lia.
    + destruct (bool_decide (h ∈ ex)); [| done].
      inversion Hstep; subst p1.
      pose proof (IH {| dispatcher := d; executing := without h ex;
                        executed := done ++ [h] |} Hwf Hrun) as Hrest.
      simpl in Hrest. lia.
Qed.

(** Without refused calls and without a look at the worker processes the
    runs of the pool are the runs of the dispatcher. *)
Lemma run_calls (evs : list (@Dispatcher.event Config)) (p : Pool Config) :
  dispatcher <$> run (Call <$> evs) p = Dispatcher.run unguarded evs (dispatcher p).
Proof.
  revert p. induction evs as [| e evs IH]; intros p; simpl; [done |].
  destruct (Dispatcher.step e (dispatcher p)) as [d' |]; [| done].
  by rewrite IH.
Qed.


(** X1: a slot taken at line 54 comes back through [_release_worker]
    only: on every run, gated or not, the counter is [max_workers] minus the
    futures in flight minus the calls of [_dispatch] whose submission
    raised; it is negative exactly when the futures in flight and the lost
    slots together exceed [max_workers]. *)
Theorem slots_lost_to_refused_submissions cfg js d0 evs p :
  init cfg js = Some d0 ->
  run evs (start d0) = Some p ->
  _nb_available_workers (dispatcher p)
  = (executor_max_workers d0 - Z.of_nat (length (in_flight (dispatcher p)))
     - Z.of_nat (refusals evs))%Z
  ∧ ((_nb_available_workers (dispatcher p) < 0)%Z ↔
     (executor_max_workers d0
      < Z.of_nat (length (in_flight (dispatcher p))) + Z.of_nat (refusals evs))%Z).
Proof.
  intros Hinit Hrun.
  destruct (init_invariants _ _ _ Hinit) as (Hwf0 & Hslots0 & _).
  pose proof (run_slots evs (start d0) p Hwf0 Hrun) as Hsum. simpl in Hsum.
  unfold slots_inv in Hslots0. split; lia.
Qed.

End Proofs.


(** X1 at work: on two workers, job A is in flight and the submission of
    job B raised: no slot is left. *)
Lemma slots_lost_to_refused_submissions_witness :
  _nb_available_workers
    (dispatcher (PoolSamples.after Samples.two_workers PoolSamples.B_refused))
  = (executor_max_workers (Samples.fresh_dispatcher Samples.two_workers)
     - Z.of_nat (length (in_flight
         (dispatcher (PoolSamples.after Samples.two_workers PoolSamples.B_refused))))
     - Z.of_nat (refusals PoolSamples.B_refused))%Z
  ∧ ((_nb_available_workers
        (dispatcher (PoolSamples.after Samples.two_workers PoolSamples.B_refused)) < 0)%Z ↔
     (executor_max_workers (Samples.fresh_dispatcher Samples.two_workers)
      < Z.of_nat (length (in_flight
          (dispatcher (PoolSamples.after Samples.two_workers PoolSamples.B_refused))))
        + Z.of_nat (refusals PoolSamples.B_refused))%Z).
Proof.
  apply (slots_lost_to_refused_submissions Samples.two_workers ∅
           (Samples.fresh_dispatcher Samples.two_workers) PoolSamples.B_refused
           (PoolSamples.after Samples.two_workers PoolSamples.B_refused));
    vm_compute; reflexivity.
Defined.

End PoolProofs.

(** * Properties of the graph operations *)

Module NxProofs.
Import Nx.

Lemma occurrences_absent {A : Type} `{!EqDecision A} (x : A) (l : list A) :
  x ∉ l -> occurrences x l = 0.
Proof.
  unfold occurrences. induction l as [| y l IH]; intros Hin; [done |].
  apply not_elem_of_cons in Hin as [Hne Hin].
  rewrite filter_cons_False by congruence. by apply IH.
Qed.

Lemma occurrences_NoDup {A : Type} `{!EqDecision A} (x : A) (l : list A) :
  NoDup l -> x ∈ l -> occurrences x l = 1.
Proof.
  induction 1 as [| y l Hy Hnd IH]; intros Hin.
  - by apply elem_of_nil in Hin.
  - unfold occurrences in *. apply elem_of_cons in Hin as [-> | Hin].
    + rewrite filter_cons_True by done. simpl. f_equal.
      by apply occurrences_absent.
    + rewrite filter_cons_False; [by apply IH |]. by intros ->.
Qed.

Lemma add_node_nodes n g x : x ∈ nodes (add_node n g) ↔ x = n ∨ x ∈ nodes g.
Proof.
  unfold add_node. case_decide as Hin; simpl.
  - split; [by right | by intros [-> | ?]].
  - rewrite elem_of_app, list_elem_of_singleton. tauto.
Qed.

Lemma add_node_edges n g : edges (add_node n g) = edges g.
Proof. unfold add_node. by case_decide. Qed.

Lemma add_node_NoDup n g : NoDup (nodes g) -> NoDup (nodes (add_node n g)).
Proof.
  intros Hnd. unfold add_node. case_decide as Hin; simpl; [done |].
  apply NoDup_app. split; [done |]. split; [| apply NoDup_singleton].
  intros x Hx Hx'. apply list_elem_of_singleton in Hx'. by subst.
Qed.

Lemma add_node_wf n g : graph_wf g -> graph_wf (add_node n g).
Proof.
  intros (Hn & He & Hends). split; [by apply add_node_NoDup |].
  rewrite add_node_edges. split; [done |].
  intros e Hin. rewrite !add_node_nodes. destruct (Hends e Hin). tauto.
Qed.

Lemma add_edge_nodes e g x :
  x ∈ nodes (add_edge e g) ↔ x = e.1 ∨ x = e.2 ∨ x ∈ nodes g.
Proof.
  unfold add_edge. case_decide; simpl; rewrite !add_node_nodes; tauto.
Qed.

Lemma add_edge_edges e g x : x ∈ edges (add_edge e g) ↔ x = e ∨ x ∈ edges g.
Proof.
  unfold add_edge. case_decide as Hin; simpl.
  - rewrite !add_node_edges in *. split; [by right | by intros [-> | ?]].
  - rewrite elem_of_app, list_elem_of_singleton, !add_node_edges. tauto.
Qed.

Lemma add_edge_wf e g : graph_wf g -> graph_wf (add_edge e g).
Proof.
  intros Hwf.
  pose proof (add_node_wf e.2 _ (add_node_wf e.1 _ Hwf)) as (Hn & He & Hends).
  unfold add_edge. case_decide as Hin; [done |].
  split; [done |]. split; cbn [nodes edges].
  - apply NoDup_app. split; [done |]. split; [| apply NoDup_singleton].
    intros x Hx Hx'. apply list_elem_of_singleton in Hx'. by subst.
  - intros x Hx. apply elem_of_app in Hx as [Hx | Hx]; [by apply Hends |].
    apply list_elem_of_singleton in Hx as ->. rewrite !add_node_nodes. tauto.
Qed.

Lemma empty_graph_wf : graph_wf empty_graph.
Proof.
  split; [apply NoDup_nil_2 |]. split; [apply NoDup_nil_2 |].
  intros e He. by apply elem_of_nil in He.
Qed.

(** *** Peeling generations off a graph *)

Section Layers.
Context (E : list (node * node)).

Lemma blocked_spec remaining v :
  blocked E remaining v ↔ ∃ u, (u, v) ∈ E ∧ u ∈ remaining.
Proof.
  unfold blocked. rewrite Exists_exists. split.
  - intros ([u w] & Hin & Hv & Hu). simpl in *. subst. eauto.
  - intros (u & Hin & Hu). exists (u, v). eauto.
Qed.

Lemma zero_indegree_spec remaining v :
  v ∈ zero_indegree E remaining ↔ v ∈ remaining ∧ ¬ blocked E remaining v.
Proof. unfold zero_indegree. rewrite list_elem_of_filter. tauto. Qed.

(** Induction along the rounds of [layers]. *)
Lemma layers_ind (P : list node -> list (list node) -> list node -> Prop) :
  (∀ remaining, P remaining [] remaining) ->
  (∀ remaining g generations stuck,
     g = zero_indegree E remaining -> g ≠ [] ->
     P (list_difference remaining g) generations stuck ->
     P remaining (g :: generations) stuck) ->
  ∀ fuel remaining generations stuck,
    layers fuel E remaining = (generations, stuck) -> P remaining generations stuck.
Proof.
  intros Hbase Hstep. induction fuel as [| fuel IH]; intros remaining gs stuck Hl;
    simpl in Hl.
  - inversion Hl; subst. apply Hbase.
  - destruct (zero_indegree E remaining) as [| x g] eqn:Hz.
    + inversion Hl; subst. apply Hbase.
    + destruct (layers fuel E (list_difference remaining (x :: g)))
        as [gs' stuck'] eqn:Hrec.
      inversion Hl; subst. apply Hstep; [done | done |].
      rewrite <- Hz. apply IH. by rewrite Hz.
Qed.

(** The generations and the stuck nodes share out the remaining nodes. *)
Lemma layers_elem fuel remaining generations stuck :
  layers fuel E remaining = (generations, stuck) ->
  ∀ x, x ∈ remaining ↔ x ∈ concat generations ∨ x ∈ stuck.
Proof.
  revert fuel remaining generations stuck.
  apply (layers_ind (fun remaining generations stuck =>
           ∀ x, x ∈ remaining ↔ x ∈ concat generations ∨ x ∈ stuck)).
  - intros remaining x. simpl. split; [by right |].
    intros [Hx | Hx]; [by apply elem_of_nil in Hx | done].
  - intros remaining g gs stuck -> _ IH x. simpl.
    rewrite elem_of_app. specialize (IH x).
    rewrite list_elem_of_difference in IH.
    destruct (decide (x ∈ zero_indegree E remaining)) as [Hin | Hout].
    + pose proof Hin as Hin'. apply zero_indegree_spec in Hin'. tauto.
    + tauto.
Qed.

Lemma layers_NoDup fuel remaining generations stuck :
  layers fuel E remaining = (generations, stuck) ->
  NoDup remaining -> NoDup (concat generations ++ stuck).
Proof.
  intros Hl Hnd.
  cut (NoDup (concat generations ++ stuck)
       ∧ ∀ x, x ∈ concat generations ++ stuck → x ∈ remaining); [tauto |].
  revert fuel remaining generations stuck Hl Hnd.
  apply (layers_ind (fun remaining generations stuck =>
           NoDup remaining ->
           NoDup (concat generations ++ stuck)
           ∧ ∀ x, x ∈ concat generations ++ stuck → x ∈ remaining)).
  - done.
  - intros remaining g gs stuck -> _ IH Hnd. simpl.
    destruct IH as [IHnd IHin]; [by apply NoDup_list_difference |].
    rewrite <- (assoc_L (++)). split.
    + apply NoDup_app. split; [by apply NoDup_filter |]. split; [| done].
      intros x Hx Hx'. apply IHin, list_elem_of_difference in Hx'. tauto.
    + intros x Hx. apply elem_of_app in Hx as [Hx | Hx].
      * apply zero_indegree_spec in Hx. tauto.
      * apply IHin, list_elem_of_difference in Hx. tauto.
Qed.

(** A generation holds a node only after all its predecessors. *)
Lemma layers_order fuel remaining generations stuck :
  layers fuel E remaining = (generations, stuck) ->
  ∀ u x, (u, x) ∈ E -> u ∈ remaining -> x ∈ concat generations ->
    u ∈ concat generations
    ∧ generation_of u generations < generation_of x generations.
Proof.
  revert fuel remaining generations stuck.
  apply (layers_ind (fun remaining generations stuck =>
           ∀ u x, (u, x) ∈ E -> u ∈ remaining -> x ∈ concat generations ->
             u ∈ concat generations
             ∧ generation_of u generations < generation_of x generations)).
  - intros remaining u x _ _ Hx. by apply elem_of_nil in Hx.
  - intros remaining g gs stuck -> _ IH u x Hedge Hu Hx. simpl in *.
    destruct (decide (x ∈ zero_indegree E remaining)) as [Hready | Hlater].
    { apply zero_indegree_spec in Hready as [_ Hfree]. destruct Hfree.
      apply blocked_spec. eauto. }
    apply elem_of_app in Hx as [Hx | Hx]; [done |].
    destruct (decide (u ∈ zero_indegree E remaining)) as [Hu0 | Hu0].
    { rewrite elem_of_app. split; [by left | lia]. }
    destruct (IH u x Hedge) as [Hin Hlt]; [| done |].
    { apply list_elem_of_difference. tauto. }
    rewrite elem_of_app. split; [by right | lia].
Qed.

(** With enough fuel the rounds stop only when no node is free. *)
Lemma layers_stuck fuel remaining generations stuck :
  layers fuel E remaining = (generations, stuck) ->
  length remaining <= fuel -> zero_indegree E stuck = [].
Proof.
  revert remaining generations stuck.
  induction fuel as [| fuel IH]; intros remaining gs stuck Hl Hlen; simpl in Hl.
  - inversion Hl; subst. by destruct stuck; [| simpl in Hlen; lia].
  - destruct (zero_indegree E remaining) as [| x g] eqn:Hz.
    + inversion Hl; by subst.
    + destruct (layers fuel E (list_difference remaining (x :: g)))
        as [gs' stuck'] eqn:Hrec.
      inversion Hl; subst. apply (IH _ _ _ Hrec).
      assert (x ∈ zero_indegree E remaining) as Hx by (rewrite Hz; left).
      apply zero_indegree_spec in Hx as [Hx _].
      assert (length (list_difference remaining (x :: g)) < length remaining);
        [| lia].
      clear -Hx. induction remaining as [| y remaining IHr]; simpl.
      { by apply elem_of_nil in Hx. }
      case_decide as Hy; simpl.
      * pose proof (length_filter (fun z => z ∉ x :: g) remaining).
        assert (length (list_difference remaining (x :: g)) <= length remaining);
          [| lia].
        clear. induction remaining as [| z r IHz]; simpl; [lia |].
        case_decide; simpl; lia.
      * apply elem_of_cons in Hx as [-> | Hx]; [| apply IHr in Hx; lia].
        destruct Hy. left.
Qed.

(** The first generation, when there is one. *)
Lemma layers_first fuel remaining :
  zero_indegree E remaining ≠ [] ->
  ∃ generations stuck,
    layers (S fuel) E remaining
    = (zero_indegree E remaining :: generations, stuck).
Proof.
  intros Hne. simpl. destruct (zero_indegree E remaining) as [| x g]; [done |].
  destruct (layers fuel E (list_difference remaining (x :: g))) as [gs stuck].
  by exists gs, stuck.
Qed.

(** *** Cycles *)

(** A node on a cycle has a predecessor on a cycle. *)
Lemma cycle_pred (R : relation node) v :
  tc R v v -> ∃ u, R u v ∧ tc R u u.
Proof.
  intros Hc. inversion Hc as [? ? Hvv | ? y ? Hvy Hyv]; subst.
  - exists v. split; [done | by apply tc_once].
  - apply tc_rtc, rtc_inv_r in Hyv as [-> | (u & Hyu & Huv)].
    + exists v. split; [done | by apply tc_once].
    + exists u. split; [done |].
      eapply tc_l; [exact Huv |]. eapply tc_rtc_r; [by apply tc_once | done].
Qed.

(** The nodes on cycles are never free: they end among the stuck nodes. *)
Lemma layers_cycle fuel remaining generations stuck :
  layers fuel E remaining = (generations, stuck) ->
  (∀ v, tc (fun u v => (u, v) ∈ E) v v → v ∈ remaining) ->
  ∀ v, tc (fun u v => (u, v) ∈ E) v v → v ∈ stuck.
Proof.
  revert fuel remaining generations stuck.
  apply (layers_ind (fun remaining generations stuck =>
           (∀ v, tc (fun u v => (u, v) ∈ E) v v → v ∈ remaining) ->
           ∀ v, tc (fun u v => (u, v) ∈ E) v v → v ∈ stuck)).
  - done.
  - intros remaining g gs stuck -> _ IH Hall. apply IH. intros v Hv.
    apply list_elem_of_difference. split; [by apply Hall |].
    rewrite zero_indegree_spec, blocked_spec. intros [_ Hfree]. apply Hfree.
    destruct (cycle_pred _ _ Hv) as (u & Huv & Hu). exists u. split; [done |].
    by apply Hall.
Qed.

(** Along a list whose consecutive elements are related by [R], every
    element reaches the later ones. *)
Lemma chain_tc (R : relation node) (l : list node) :
  (∀ i a b, l !! i = Some a → l !! S i = Some b → R a b) ->
  ∀ j i a b, i < j -> l !! i = Some a -> l !! j = Some b -> tc R a b.
Proof.
  intros Hchain. induction j as [| j IH]; intros i a b Hij Ha Hb; [lia |].
  destruct (lookup_lt_is_Some_2 l j) as [c Hc].
  { apply lookup_lt_Some in Hb. lia. }
  pose proof (Hchain _ _ _ Hc Hb) as Hcb.
  destruct (decide (i = j)) as [-> | Hne].
  - rewrite Ha in Hc. inversion Hc; subst. by apply tc_once.
  - eapply tc_r; [| exact Hcb]. apply (IH i); [lia | done | done].
Qed.

(** When every node of [V] has a predecessor in [V], one can walk backwards
    inside [V] for as long as one likes. *)
Lemma walk_back (R : relation node) (V : list node) :
  (∀ x, x ∈ V → ∃ u, u ∈ V ∧ R u x) ->
  ∀ x, x ∈ V -> ∀ n, ∃ h t,
    length t = n ∧ (∀ y, y ∈ h :: t → y ∈ V)
    ∧ ∀ i a b, (h :: t) !! i = Some a → (h :: t) !! S i = Some b → R a b.
Proof.
  intros Hpred x Hx. induction n as [| n (h & t & Hlen & Hin & Hchain)].
  - exists x, []. split; [done |]. split.
    + intros y Hy. apply list_elem_of_singleton in Hy. by subst.
    + intros [| i] a b Ha Hb; simpl in *; done.
  - destruct (Hpred h) as (u & Hu & Huh); [apply Hin; left |].
    exists u, (h :: t). split; [simpl; lia |]. split.
    + intros y Hy. apply elem_of_cons in Hy as [-> | Hy]; [done | by apply Hin].
    + intros [| i] a b Ha Hb; simpl in *.
      * inversion Ha; inversion Hb; by subst.
      * by eapply Hchain.
Qed.

(** A non-empty set of nodes in which no node is free holds a cycle. *)
Lemma stuck_cycle stuck :
  stuck ≠ [] -> zero_indegree E stuck = [] ->
  ∃ v, tc (fun u v => (u, v) ∈ E) v v.
Proof.
  intros Hne Hnone.
  assert (∀ x, x ∈ stuck → ∃ u, u ∈ stuck ∧ (u, x) ∈ E) as Hpred.
  { intros x Hx. destruct (decide (blocked E stuck x)) as [Hb | Hb].
    - apply blocked_spec in Hb as (u & ? & ?). eauto.
    - assert (x ∈ zero_indegree E stuck) as Hz by (by apply zero_indegree_spec).
      rewrite Hnone in Hz. by apply elem_of_nil in Hz. }
  destruct stuck as [| x0 stuck']; [done |].
  destruct (walk_back (fun u v => (u, v) ∈ E) _ Hpred x0 ltac:(left)
              (length (x0 :: stuck')))
    as (h & t & Hlen & Hin & Hchain).
  destruct (list_pigeonhole (h :: t) (x0 :: stuck')) as (i1 & i2 & x & Hlt & H1 & H2).
  { intros y Hy. by apply Hin. }
  { simpl in *. lia. }
  exists x. by apply (chain_tc _ (h :: t) Hchain i2 i1).
Qed.

End Layers.

(** *** The sort of a whole graph *)

Lemma topological_generations_layers g :
  ∃ generations stuck,
    layers (length (nodes g)) (edges g) (nodes g) = (generations, stuck)
    ∧ topological_generations g
      = (generations, match stuck with
                      | [] => None
                      | _ :: _ => Some "NetworkXUnfeasible"%string
                      end).
Proof.
  unfold topological_generations.
  destruct (layers (length (nodes g)) (edges g) (nodes g)) as [gs stuck].
  by exists gs, stuck.
Qed.

(** The sort runs to its end exactly on the graphs without cycle. *)
Lemma acyclic_iff g :
  graph_wf g -> (is_directed_acyclic_graph g = true ↔ ¬ has_cycle g).
Proof.
  intros (_ & _ & Hends). unfold is_directed_acyclic_graph.
  destruct (topological_generations_layers g) as (gs & stuck & Hl & ->). simpl.
  split.
  - intros Hnone [v Hv]. destruct stuck as [| x stuck]; [| done].
    assert (v ∈ []) as Hin; [| by apply elem_of_nil in Hin].
    apply (layers_cycle _ _ _ _ _ Hl); [| done].
    intros w Hw. destruct (cycle_pred _ _ Hw) as (u & Huw & _).
    by destruct (Hends _ Huw).
  - intros Hacyclic. destruct stuck as [| x stuck]; [done |].
    destruct Hacyclic. apply (stuck_cycle (edges g) (x :: stuck)); [done |].
    by apply (layers_stuck _ _ _ _ _ Hl).
Qed.

(** On a graph without cycle the generations share out the nodes, and every
    edge leads to a strictly later generation. *)
Lemma topological_generations_complete g generations :
  graph_wf g -> topological_generations g = (generations, None) ->
  (∀ x, x ∈ nodes g ↔ x ∈ concat generations)
  ∧ NoDup (concat generations)
  ∧ (∀ u x, edge g u x →
       generation_of u generations < generation_of x generations).
Proof.
  intros (Hnd & _ & Hends) Htopo.
  destruct (topological_generations_layers g) as (gs & stuck & Hl & Heq).
  rewrite Htopo in Heq. destruct stuck as [| y stuck]; [| done].
  inversion Heq; subst gs. clear Heq.
  pose proof (layers_elem _ _ _ _ _ Hl) as Helem.
  assert (∀ x, x ∈ nodes g ↔ x ∈ concat generations) as Hall.
  { intros x. rewrite Helem. split; [| by left].
    intros [? | Hx]; [done | by apply elem_of_nil in Hx]. }
  split; [done |]. split.
  - pose proof (layers_NoDup _ _ _ _ _ Hl Hnd) as Hnd'.
    by rewrite app_nil_r in Hnd'.
  - intros u x Hedge. destruct (Hends _ Hedge) as [Hu Hx]. simpl in *.
    apply (layers_order _ _ _ _ _ Hl u x Hedge Hu). by apply Hall.
Qed.

(** The first generation holds the nodes without predecessor. *)
Lemma topological_generations_first g x :
  x ∈ zero_indegree (edges g) (nodes g) ->
  ∃ generations stop,
    topological_generations g
    = (zero_indegree (edges g) (nodes g) :: generations, stop).
Proof.
  intros Hx. unfold topological_generations.
  assert (nodes g ≠ []) as Hne.
  { intros Hnil. unfold zero_indegree in Hx. rewrite Hnil in Hx.
    by apply elem_of_nil in Hx. }
  destruct (nodes g) as [| y ns] eqn:Hnodes; [done |].
  change (length (y :: ns)) with (S (length ns)).
  destruct (layers_first (edges g) (length ns) (y :: ns)) as (gs & stuck & ->).
  { intros Hnil. rewrite Hnil in Hx. by apply elem_of_nil in Hx. }
  eauto.
Qed.

(** [generation_of] finds the generation that holds a node. *)
Lemma generation_of_lookup generations k g x :
  NoDup (concat generations) -> generations !! k = Some g -> x ∈ g ->
  generation_of x generations = k.
Proof.
  revert k. induction generations as [| g0 gs IH]; intros k Hnd Hk Hx; [done |].
  simpl in *. apply NoDup_app in Hnd as (_ & Hdisj & Hnd).
  destruct k as [| k]; simpl in Hk.
  - inversion Hk; subst. by rewrite decide_True.
  - rewrite decide_False; [f_equal; by apply IH |].
    intros Hx0. apply (Hdisj x Hx0). apply list_elem_of_In, in_concat.
    exists g. split; apply list_elem_of_In; [| done].
    by eapply list_elem_of_lookup_2.
Qed.

End NxProofs.

(** * Properties of pipelines *)

Module PipelineProofs.
Import Nx NxProofs Pipeline.

(** *** The dictionary of tasks *)

Lemma dict_get_set {V} (k k' : string) (v : V) d :
  dict_get k' (dict_set k v d) = if decide (k' = k) then Some v else dict_get k' d.
Proof.
  induction d as [| [k0 v0] d IH]; simpl.
  - by repeat case_decide.
  - repeat (case_decide; simpl; subst); try done; congruence.
Qed.

Lemma dict_set_keys {V} (k : string) (v : V) d :
  (dict_set k v d).*1 = if decide (k ∈ d.*1) then d.*1 else d.*1 ++ [k].
Proof.
  induction d as [| [k0 v0] d IH].
  - cbn [dict_set fmap list_fmap fst].
    destruct (decide (k ∈ [])) as [Hin | _]; [by apply elem_of_nil in Hin | done].
  - cbn [dict_set]. destruct (decide (k = k0)) as [-> | Hk].
    + cbn [fmap list_fmap fst].
      destruct (decide (k0 ∈ k0 :: d.*1)) as [_ | Hout]; [done |].
      destruct Hout. left.
    + cbn [fmap list_fmap fst] in *. rewrite IH.
      destruct (decide (k ∈ d.*1)) as [Hin | Hout];
        destruct (decide (k ∈ k0 :: d.*1)) as [Hin' | Hout']; try done.
      * destruct Hout'. by right.
      * apply elem_of_cons in Hin' as [? | ?]; done.
Qed.

Lemma dict_set_NoDup {V} (k : string) (v : V) d :
  NoDup d.*1 -> NoDup (dict_set k v d).*1.
Proof.
  intros Hnd. rewrite dict_set_keys. case_decide as Hin; [done |].
  apply NoDup_app. split; [done |]. split; [| apply NoDup_singleton].
  intros x Hx Hx'. apply list_elem_of_singleton in Hx'. by subst.
Qed.

Lemma dict_elem_get {V} (k : string) (v : V) d :
  NoDup d.*1 -> ((k, v) ∈ d ↔ dict_get k d = Some v).
Proof.
  induction d as [| [k0 v0] d IH]; simpl; intros Hnd.
  - split; [intros Hin; by apply elem_of_nil in Hin | done].
  - apply NoDup_cons in Hnd as [Hfresh Hnd]. rewrite elem_of_cons.
    case_decide as Hk; subst.
    + split.
      * intros [Heq | Hin]; [by inversion Heq |].
        destruct Hfresh. apply list_elem_of_fmap. by exists (k0, v).
      * intros Heq. inversion Heq. by left.
    + rewrite <- (IH Hnd). split; [| by right].
      intros [Heq | Hin]; [by inversion Heq | done].
Qed.

(** The keys are the configuration ids of the tasks they lead to, each
    once. *)
Lemma tasks_by_config_id_keys tasks :
  NoDup (tasks_by_config_id tasks).*1
  ∧ ∀ k t, (k, t) ∈ tasks_by_config_id tasks → k = config_id t.
Proof.
  unfold tasks_by_config_id.
  cut (∀ d : list (string * Task),
         NoDup d.*1 ∧ (∀ k t, (k, t) ∈ d → k = config_id t) →
         NoDup (foldl (fun d task => dict_set (config_id task) task d) d tasks).*1
         ∧ ∀ k t,
             (k, t) ∈ foldl (fun d task => dict_set (config_id task) task d) d tasks →
             k = config_id t).
  { intros Hcut. apply Hcut. split; [apply NoDup_nil_2 |].
    intros k t Hin. by apply elem_of_nil in Hin. }
  induction tasks as [| t0 tasks IH]; intros d [Hnd Hkeys]; simpl; [done |].
  apply IH. split; [by apply dict_set_NoDup |].
  intros k t Hin. apply dict_elem_get in Hin; [| by apply dict_set_NoDup].
  rewrite dict_get_set in Hin. case_decide as Hk.
  - inversion Hin. by subst.
  - apply Hkeys. by apply dict_elem_get.
Qed.

(** The tasks that follow decide the value of a key. *)
Lemma tasks_by_config_id_last before t after :
  (∀ t', t' ∈ after → config_id t' ≠ config_id t) ->
  dict_get (config_id t) (tasks_by_config_id (before ++ t :: after)) = Some t.
Proof.
  intros Hlast. unfold tasks_by_config_id. rewrite foldl_app. simpl.
  generalize (foldl (fun d task => dict_set (config_id task) task d) [] before).
  intros d.
  assert (dict_get (config_id t) (dict_set (config_id t) t d) = Some t) as Hget
    by (by rewrite dict_get_set, decide_True).
  revert Hget. generalize (dict_set (config_id t) t d). clear d.
  induction after as [| t' after IH]; intros d Hget; simpl; [done |].
  apply IH.
  - intros t'' Hin. apply Hlast. by right.
  - rewrite dict_get_set, decide_False; [done |].
    intros Heq. apply (Hlast t'); [left | done].
Qed.

(** *** The graph of a pipeline *)

Lemma add_edges_fold_wf (f : DataNode -> node * node) ds g :
  graph_wf g -> graph_wf (foldl (fun graph d => add_edges_from [f d] graph) g ds).
Proof.
  revert g. induction ds as [| d ds IH]; intros g Hwf; simpl; [done |].
  apply IH. by apply add_edge_wf.
Qed.

Lemma add_edges_fold_edges (f : DataNode -> node * node) ds g e :
  e ∈ edges (foldl (fun graph d => add_edges_from [f d] graph) g ds)
  ↔ e ∈ edges g ∨ e ∈ f <$> ds.
Proof.
  revert g. induction ds as [| d ds IH]; intros g; simpl.
  - split; [by left |]. intros [? | Hin]; [done | by apply elem_of_nil in Hin].
  - rewrite IH. unfold add_edges_from. simpl.
    rewrite add_edge_edges, elem_of_cons. tauto.
Qed.

Lemma add_edges_fold_nodes (f : DataNode -> node * node) ds g n :
  n ∈ nodes (foldl (fun graph d => add_edges_from [f d] graph) g ds)
  ↔ n ∈ nodes g ∨ n ∈ (fun d => (f d).1) <$> ds ∨ n ∈ (fun d => (f d).2) <$> ds.
Proof.
  revert g. induction ds as [| d ds IH]; intros g; simpl.
  - split; [by left |].
    intros [? | [Hin | Hin]]; [done | by apply elem_of_nil in Hin ..].
  - rewrite IH. unfold add_edges_from. simpl.
    rewrite add_edge_nodes, !elem_of_cons. tauto.
Qed.

(** The guards of [add_task] only skip loops over empty dictionaries. *)
Lemma add_task_unfold g t :
  add_task g t =
  let g1 := foldl (fun graph d => add_edges_from [(DataNodeN d, TaskN t)] graph)
              g (values (input t)) in
  let g2 := foldl (fun graph d => add_edges_from [(TaskN t, DataNodeN d)] graph)
              g1 (values (output t)) in
  if decide (input t = [] ∧ output t = []) then add_node (TaskN t) g2 else g2.
Proof.
  unfold add_task. destruct (input t) as [| i ins]; destruct (output t) as [| o outs];
    simpl; try done.
Qed.

Lemma add_task_wf g t : graph_wf g -> graph_wf (add_task g t).
Proof.
  intros Hwf. rewrite add_task_unfold. cbv zeta.
  pose proof (add_edges_fold_wf (fun d => (TaskN t, DataNodeN d)) (values (output t)) _
                (add_edges_fold_wf (fun d => (DataNodeN d, TaskN t))
                   (values (input t)) g Hwf)) as Hwf2.
  case_decide; [by apply add_node_wf | done].
Qed.

Lemma add_task_edges g t e :
  e ∈ edges (add_task g t) ↔ e ∈ edges g ∨ e ∈ task_edges t.
Proof.
  rewrite add_task_unfold. cbv zeta.
  pose proof (add_edges_fold_edges (fun d => (TaskN t, DataNodeN d))
                (values (output t))) as Hout.
  pose proof (add_edges_fold_edges (fun d => (DataNodeN d, TaskN t))
                (values (input t))) as Hin.
  cbv beta in Hout, Hin. unfold task_edges. rewrite elem_of_app.
  case_decide; rewrite ?add_node_edges, Hout, Hin; tauto.
Qed.

Lemma add_task_nodes g t n :
  n ∈ nodes (add_task g t) ↔ n ∈ nodes g ∨ n ∈ task_nodes t.
Proof.
  rewrite add_task_unfold. cbv zeta.
  pose proof (add_edges_fold_nodes (fun d => (TaskN t, DataNodeN d))
                (values (output t))) as Hout.
  pose proof (add_edges_fold_nodes (fun d => (DataNodeN d, TaskN t))
                (values (input t))) as Hin.
  cbv beta in Hout, Hin. simpl in Hout, Hin. unfold task_nodes.
  rewrite elem_of_cons, fmap_app, elem_of_app.
  assert (∀ ds : list DataNode, n ∈ (fun _ => TaskN t) <$> ds ↔ n = TaskN t ∧ ds ≠ [])
    as Hconst.
  { intros ds. rewrite list_elem_of_fmap. split.
    - intros (d & -> & Hd). split; [done |]. intros ->. by apply elem_of_nil in Hd.
    - intros [-> Hne]. destruct ds as [| d ds]; [done |]. exists d. split; [done | left]. }
  case_decide as Hboth; rewrite ?add_node_nodes, Hout, Hin, !Hconst.
  - destruct Hboth as [-> ->]. simpl. tauto.
  - assert (values (input t) ≠ [] ∨ values (output t) ≠ []) as Hne.
    { unfold values. destruct (input t); destruct (output t); simpl;
        [destruct Hboth; done | by right | by left | by left]. }
    tauto.
Qed.

Lemma build_dag_fold_wf ts g : graph_wf g -> graph_wf (foldl add_task g ts).
Proof.
  revert g. induction ts as [| t ts IH]; intros g Hwf; simpl; [done |].
  apply IH. by apply add_task_wf.
Qed.

Lemma build_dag_wf tasks : graph_wf (__build_dag tasks).
Proof. apply build_dag_fold_wf, empty_graph_wf. Qed.

(** The edges of the graph are the edges of the tasks, and its nodes are
    their nodes. *)
Lemma build_dag_edges tasks e :
  e ∈ edges (__build_dag tasks) ↔ ∃ t, t ∈ values tasks ∧ e ∈ task_edges t.
Proof.
  unfold __build_dag.
  cut (∀ g, e ∈ edges (foldl add_task g (values tasks))
            ↔ e ∈ edges g ∨ ∃ t, t ∈ values tasks ∧ e ∈ task_edges t).
  { intros Hcut. rewrite Hcut. simpl. split; [| by right].
    intros [Hin | ?]; [by apply elem_of_nil in Hin | done]. }
  induction (values tasks) as [| t ts IH]; intros g; simpl.
  - split; [by left |]. intros [? | (t & Hin & _)]; [done | by apply elem_of_nil in Hin].
  - rewrite IH, add_task_edges. split.
    + intros [[? | ?] | (t' & ? & ?)]; [by left | right; exists t | right; exists t'];
        (split; [| done]); [left | by right].
    + intros [? | (t' & Hin & ?)]; [by left; left |].
      apply elem_of_cons in Hin as [-> | ?]; [by left; right | right; by exists t'].
Qed.

Lemma build_dag_nodes tasks n :
  n ∈ nodes (__build_dag tasks) ↔ ∃ t, t ∈ values tasks ∧ n ∈ task_nodes t.
Proof.
  unfold __build_dag.
  cut (∀ g, n ∈ nodes (foldl add_task g (values tasks))
            ↔ n ∈ nodes g ∨ ∃ t, t ∈ values tasks ∧ n ∈ task_nodes t).
  { intros Hcut. rewrite Hcut. simpl. split; [| by right].
    intros [Hin | ?]; [by apply elem_of_nil in Hin | done]. }
  induction (values tasks) as [| t ts IH]; intros g; simpl.
  - split; [by left |]. intros [? | (t & Hin & _)]; [done | by apply elem_of_nil in Hin].
  - rewrite IH, add_task_nodes. split.
    + intros [[? | ?] | (t' & ? & ?)]; [by left | right; exists t | right; exists t'];
        (split; [| done]); [left | by right].
    + intros [? | (t' & Hin & ?)]; [by left; left |].
      apply elem_of_cons in Hin as [-> | ?]; [by left; right | right; by exists t'].
Qed.

(** The two shapes of an edge. *)
Lemma task_edges_spec t e :
  e ∈ task_edges t ↔
  (∃ d, d ∈ values (input t) ∧ e = (DataNodeN d, TaskN t))
  ∨ (∃ d, d ∈ values (output t) ∧ e = (TaskN t, DataNodeN d)).
Proof.
  unfold task_edges. rewrite elem_of_app, !list_elem_of_fmap. split.
  - intros [(d & -> & Hd) | (d & -> & Hd)]; [left | right]; by exists d.
  - intros [(d & Hd & ->) | (d & Hd & ->)]; [left | right]; by exists d.
Qed.

(** A task node of the graph is a task of the pipeline. *)
Lemma build_dag_task_node tasks t :
  TaskN t ∈ nodes (__build_dag tasks) ↔ t ∈ values tasks.
Proof.
  rewrite build_dag_nodes. unfold task_nodes. split.
  - intros (t' & Hin & Hn). apply elem_of_cons in Hn as [Heq | Hn].
    + by inversion Heq.
    + apply list_elem_of_fmap in Hn as (d & Heq & _). done.
  - intros Hin. exists t. split; [done | left].
Qed.

(** *** The consistency check *)

Lemma wrong_kind_false is_data_node n :
  wrong_kind is_data_node n = false ↔
  (if is_data_node then is_DataNode n = true else is_Task n = true).
Proof. destruct is_data_node, n; simpl; split; done. Qed.

Lemma existsb_wrong_kind is_data_node g :
  existsb (wrong_kind is_data_node) g = false ↔
  ∀ n, n ∈ g → if is_data_node then is_DataNode n = true else is_Task n = true.
Proof.
  induction g as [| n g IH]; simpl.
  - split; [| done]. intros _ n Hn. by apply elem_of_nil in Hn.
  - rewrite orb_false_iff, IH, wrong_kind_false. split.
    + intros [Hn Hg] m Hm. apply elem_of_cons in Hm as [-> | Hm]; [done | by apply Hg].
    + intros Hall. split; [apply Hall; left |]. intros m Hm. apply Hall. by right.
Qed.

(** Without pending exception the loop returns, and it returns true exactly
    on alternating generations. *)
Lemma check_generations_alternating is_data_node generations :
  ∃ flag, check_generations is_data_node generations None = Ok flag
          ∧ (flag = true ↔ alternating is_data_node generations).
Proof.
  revert is_data_node. induction generations as [| g gs IH]; intros b; simpl.
  - by exists true.
  - destruct (existsb (wrong_kind b) g) eqn:Hg.
    + exists false. split; [done |]. split; [done |]. intros [Hall _].
      apply existsb_wrong_kind in Hall. congruence.
    + destruct (IH (negb b)) as (flag & -> & Hflag). exists flag. split; [done |].
      rewrite Hflag. pose proof (proj1 (existsb_wrong_kind b g) Hg). tauto.
Qed.

(** The validation never raises. *)
Lemma is_consistent_returns tasks :
  ∃ flag, __is_consistent tasks = Ok flag
          ∧ (flag = true ↔
             ¬ has_cycle (__build_dag tasks)
             ∧ alternating true (topological_generations (__build_dag tasks)).1).
Proof.
  unfold __is_consistent.
  pose proof (acyclic_iff _ (build_dag_wf tasks)) as Hacyclic.
  destruct (is_directed_acyclic_graph (__build_dag tasks)) eqn:Hdag; simpl.
  - unfold is_directed_acyclic_graph in Hdag.
    destruct (topological_generations (__build_dag tasks)) as [gs stop]. simpl in *.
    destruct stop as [e |]; [done |].
    destruct (check_generations_alternating true gs) as (flag & -> & Hflag).
    exists flag. split; [done |]. rewrite Hflag. tauto.
  - exists false. split; [done |]. split; [done |]. intros [Hno _].
    apply Hacyclic in Hno. congruence.
Qed.

Section Construction.
Context (_validate_id : string -> result string) (uuid4 : string).

(** [__init__] stores the dictionary of the tasks and the flag returned by
    the validation; it only raises what [_validate_id] raises. *)
Lemma init_spec config_id tasks pipeline_id parent_id :
  match __init__ _validate_id uuid4 config_id tasks pipeline_id parent_id with
  | Ok p =>
      _tasks p = tasks_by_config_id tasks
      ∧ __is_consistent (tasks_by_config_id tasks) = Ok (is_consistent p)
  | Raise e =>
      _validate_id config_id = Raise e
      ∨ ∃ cid, _validate_id config_id = Ok cid ∧ _validate_id cid = Raise e
  end.
Proof.
  unfold __init__, new_id.
  destruct (_validate_id config_id) as [cid | e] eqn:Hcid; [| by left].
  destruct (is_consistent_returns (tasks_by_config_id tasks)) as (flag & Hflag & _).
  destruct pipeline_id as [i |];
    [destruct (decide (i = String.EmptyString)) as [Hempty | Hgiven] |];
    try (destruct (_validate_id cid) as [cid' | err] eqn:Hcid');
    simpl; rewrite ?Hflag; simpl;
    first [by split | right; by exists cid].
Qed.

End Construction.

(** *** Generations that hold a task *)

Lemma alternating_same_kind is_data_node generations g :
  alternating is_data_node generations -> g ∈ generations ->
  (∀ n, n ∈ g → is_DataNode n = true) ∨ (∀ n, n ∈ g → is_Task n = true).
Proof.
  revert is_data_node. induction generations as [| g0 gs IH]; intros b Halt Hin.
  - by apply elem_of_nil in Hin.
  - destruct Halt as [Hg0 Halt]. apply elem_of_cons in Hin as [-> | Hin].
    + destruct b; [by left | by right].
    + by apply (IH (negb b)).
Qed.

Lemma elem_of_concat (generations : list (list node)) x :
  x ∈ concat generations ↔ ∃ g, g ∈ generations ∧ x ∈ g.
Proof.
  rewrite list_elem_of_In, in_concat. split.
  - intros (g & Hg & Hx). exists g. by rewrite !list_elem_of_In.
  - intros (g & Hg & Hx). exists g. by rewrite <- !list_elem_of_In.
Qed.

Lemma elem_of_bool_filter (p : list node -> bool) generations g :
  g ∈ List.filter p generations ↔ g ∈ generations ∧ p g = true.
Proof. by rewrite !list_elem_of_In, filter_In. Qed.

Lemma NoDup_concat_filter (p : list node -> bool) generations :
  NoDup (concat generations) -> NoDup (concat (List.filter p generations)).
Proof.
  induction generations as [| g gs IH]; simpl; [done |]. intros Hnd.
  apply NoDup_app in Hnd as (Hg & Hdisj & Hgs).
  destruct (p g); simpl; [| by apply IH].
  apply NoDup_app. split; [done |]. split; [| by apply IH].
  intros x Hx Hx'. apply (Hdisj x Hx).
  apply elem_of_concat in Hx' as (g' & Hg' & Hxg').
  apply elem_of_bool_filter in Hg' as [Hg' _].
  apply elem_of_concat. by exists g'.
Qed.

(** Dropping generations keeps the order of the nodes that stay. *)
Lemma generation_of_filter (p : list node -> bool) generations x y :
  (∀ g, g ∈ generations → x ∈ g → p g = true) ->
  generation_of x generations < generation_of y generations ->
  generation_of x (List.filter p generations)
  < generation_of y (List.filter p generations).
Proof.
  induction generations as [| g gs IH]; simpl; intros Hp Hlt; [lia |].
  destruct (decide (x ∈ g)) as [Hx | Hx].
  - rewrite (Hp g) by (done || left). simpl.
    rewrite decide_True by done.
    destruct (decide (y ∈ g)); [lia |]. lia.
  - destruct (decide (y ∈ g)) as [Hy | Hy]; [lia |].
    assert (generation_of x (List.filter p gs) < generation_of y (List.filter p gs))
      as Hrec.
    { apply IH; [| lia]. intros g' Hg'. apply Hp. by right. }
    destruct (p g); simpl; [| done].
    rewrite !decide_False by done. lia.
Qed.

(** *** The claims about the graph and the validation *)

(** C5: for each task of the pipeline the graph holds exactly one edge from
    each of its input data nodes to the task and exactly one edge from the
    task to each of its output data nodes, and no other edge; a task with
    neither input nor output is a node of the graph, once, and no edge
    touches it. *)
Theorem dag_holds_the_edges_of_each_task tasks t :
  t ∈ values tasks ->
  (∀ d, d ∈ values (input t) →
     occurrences (DataNodeN d, TaskN t) (edges (__build_dag tasks)) = 1)
  ∧ (∀ d, d ∈ values (output t) →
       occurrences (TaskN t, DataNodeN d) (edges (__build_dag tasks)) = 1)
  ∧ (input t = [] → output t = [] →
       occurrences (TaskN t) (nodes (__build_dag tasks)) = 1
       ∧ ∀ e, e ∈ edges (__build_dag tasks) → e.1 ≠ TaskN t ∧ e.2 ≠ TaskN t)
  ∧ (∀ e, e ∈ edges (__build_dag tasks) →
       ∃ t', t' ∈ values tasks ∧ e ∈ task_edges t').
Proof.
  intros Hin. destruct (build_dag_wf tasks) as (Hnodes & Hedges & _).
  split; [| split; [| split]].
  - intros d Hd. apply occurrences_NoDup; [done |]. apply build_dag_edges.
    exists t. split; [done |]. apply task_edges_spec. left. by exists d.
  - intros d Hd. apply occurrences_NoDup; [done |]. apply build_dag_edges.
    exists t. split; [done |]. apply task_edges_spec. right. by exists d.
  - intros Hno_input Hno_output. split.
    + apply occurrences_NoDup; [done |]. by apply build_dag_task_node.
    + intros e He. apply build_dag_edges in He as (t' & _ & He).
      apply task_edges_spec in He as [(d & Hd & ->) | (d & Hd & ->)]; simpl.
      * split; [done |]. intros Heq. inversion Heq; subst t'.
        rewrite Hno_input in Hd. by apply elem_of_nil in Hd.
      * split; [| done]. intros Heq. inversion Heq; subst t'.
        rewrite Hno_output in Hd. by apply elem_of_nil in Hd.
  - intros e He. by apply build_dag_edges.
Qed.

(** C10: of the tasks of a list that share a configuration id, the
    dictionary built by the constructor and by the setter of [tasks] keeps
    the last one, and no other; the earlier ones are dropped without any
    error. *)
Theorem last_task_of_a_config_id_is_kept before t after :
  (∀ t', t' ∈ after → config_id t' ≠ config_id t) ->
  dict_get (config_id t) (tasks_by_config_id (before ++ t :: after)) = Some t
  ∧ (∀ t', t' ∈ values (tasks_by_config_id (before ++ t :: after)) →
       config_id t' = config_id t → t' = t)
  ∧ (∀ p, _tasks (set_tasks (before ++ t :: after) p)
          = tasks_by_config_id (before ++ t :: after))
  ∧ (∀ _validate_id uuid4 cid pid parent,
       match __init__ _validate_id uuid4 cid (before ++ t :: after) pid parent with
       | Ok p => _tasks p = tasks_by_config_id (before ++ t :: after)
       | Raise e =>
           _validate_id cid = Raise e
           ∨ ∃ cid', _validate_id cid = Ok cid' ∧ _validate_id cid' = Raise e
       end).
Proof.
  intros Hlast. pose proof (tasks_by_config_id_last before t after Hlast) as Hget.
  split; [done |]. split; [| split; [done |]].
  - intros t' Hin Hsame.
    destruct (tasks_by_config_id_keys (before ++ t :: after)) as [Hnd Hkeys].
    apply list_elem_of_fmap in Hin as ([k t''] & -> & Hin). simpl in *.
    pose proof (Hkeys _ _ Hin) as ->.
    apply dict_elem_get in Hin; [| done]. rewrite Hsame in Hin. congruence.
  - intros validate uuid cid pid parent.
    pose proof (init_spec validate uuid cid (before ++ t :: after) pid parent) as Hinit.
    destruct (__init__ validate uuid cid (before ++ t :: after) pid parent);
      [by destruct Hinit | done].
Qed.

(** C4: when the graph of the tasks has no cycle and its generations
    alternate, starting with data nodes, the validation returns true; when
    the graph has a cycle it returns false; it never raises, and the
    constructor stores what it returns. *)
Theorem consistency_of_alternating_dags tasks :
  (¬ has_cycle (__build_dag tasks) →
   alternating true (topological_generations (__build_dag tasks)).1 →
   __is_consistent tasks = Ok true)
  ∧ (has_cycle (__build_dag tasks) → __is_consistent tasks = Ok false)
  ∧ (∃ flag, __is_consistent tasks = Ok flag)
  ∧ (∀ _validate_id uuid4 cid ts pid parent,
       tasks = tasks_by_config_id ts →
       match __init__ _validate_id uuid4 cid ts pid parent with
       | Ok p => __is_consistent tasks = Ok (is_consistent p)
       | Raise e =>
           _validate_id cid = Raise e
           ∨ ∃ cid', _validate_id cid = Ok cid' ∧ _validate_id cid' = Raise e
       end).
Proof.
  destruct (is_consistent_returns tasks) as (flag & Hflag & Htrue).
  split; [| split; [| split]].
  - intros Hacyclic Halt. rewrite Hflag. f_equal. by apply Htrue.
  - intros Hcycle. rewrite Hflag. f_equal. destruct flag; [| done].
    by destruct Htrue as [[Hno _] _].
  - by exists flag.
  - intros validate uuid cid ts pid parent ->.
    pose proof (init_spec validate uuid cid ts pid parent) as Hinit.
    destruct (__init__ validate uuid cid ts pid parent); [by destruct Hinit | done].
Qed.

(** C9: a pipeline with a task that has neither input nor output is not
    consistent: when the graph has no cycle the task is in the first
    generation, where the validation accepts data nodes only. *)
Theorem isolated_task_makes_inconsistent tasks t :
  t ∈ values tasks -> input t = [] -> output t = [] ->
  __is_consistent tasks = Ok false
  ∧ (¬ has_cycle (__build_dag tasks) →
     ∃ first later,
       (topological_generations (__build_dag tasks)).1 = first :: later
       ∧ TaskN t ∈ first)
  ∧ (∀ _validate_id uuid4 cid ts pid parent p,
       tasks = tasks_by_config_id ts →
       __init__ _validate_id uuid4 cid ts pid parent = Ok p →
       is_consistent p = false).
Proof.
  intros Hin Hno_input Hno_output.
  assert (TaskN t ∈ zero_indegree (edges (__build_dag tasks)) (nodes (__build_dag tasks)))
    as Hfree.
  { apply zero_indegree_spec. split; [by apply build_dag_task_node |].
    rewrite blocked_spec. intros (u & He & _).
    apply build_dag_edges in He as (t' & _ & He).
    apply task_edges_spec in He as [(d & Hd & Heq) | (d & Hd & Heq)];
      inversion Heq; subst. rewrite Hno_input in Hd. by apply elem_of_nil in Hd. }
  destruct (topological_generations_first _ _ Hfree) as (later & stop & Htopo).
  assert (__is_consistent tasks = Ok false) as Hflag.
  { unfold __is_consistent.
    destruct (is_directed_acyclic_graph (__build_dag tasks)); [| done]. simpl.
    rewrite Htopo. simpl.
    assert (existsb (wrong_kind true)
              (zero_indegree (edges (__build_dag tasks)) (nodes (__build_dag tasks)))
            = true) as ->; [| done].
    apply existsb_exists. exists (TaskN t). split; [| done].
    by apply list_elem_of_In. }
  split; [done |]. split.
  - intros _. rewrite Htopo. simpl. eauto.
  - intros validate uuid cid ts pid parent p -> Hinit.
    pose proof (init_spec validate uuid cid ts pid parent) as Hspec.
    rewrite Hinit in Hspec. destruct Hspec as [_ Hspec]. congruence.
Qed.

(** C3, for the pipelines that pass the validation: [get_sorted_tasks]
    returns the generations that hold a task, in order; every element of
    every returned generation is a task of the pipeline; no task depends on
    the output of a task of its own or of a later generation; and every
    task of the pipeline is in exactly one returned generation. *)
Theorem sorted_tasks_of_consistent_pipelines tasks :
  __is_consistent tasks = Ok true ->
  ∃ generations,
    get_sorted_tasks tasks = Ok generations
    ∧ (∀ g, g ∈ generations ↔
         g ∈ (topological_generations (__build_dag tasks)).1
         ∧ ∃ n, n ∈ g ∧ is_Task n = true)
    ∧ (∀ g n, g ∈ generations → n ∈ g → ∃ t, n = TaskN t ∧ t ∈ values tasks)
    ∧ (∀ k k' g g' t t' d,
         generations !! k = Some g → generations !! k' = Some g' → k ≤ k' →
         TaskN t ∈ g → TaskN t' ∈ g' →
         d ∈ values (input t) → d ∈ values (output t') → False)
    ∧ (∀ t, t ∈ values tasks → occurrences (TaskN t) (concat generations) = 1).
Proof.
  intros Hok. destruct (is_consistent_returns tasks) as (flag & Hflag & Htrue).
  rewrite Hflag in Hok. inversion Hok; subst flag.
  destruct Htrue as [[Hacyclic Halt] _]; [done |].
  apply (acyclic_iff _ (build_dag_wf tasks)) in Hacyclic.
  unfold is_directed_acyclic_graph in Hacyclic. unfold get_sorted_tasks.
  destruct (topological_generations (__build_dag tasks)) as [full stop] eqn:Htopo.
  simpl in *. destruct stop as [e |]; [done |].
  destruct (topological_generations_complete _ _ (build_dag_wf tasks) Htopo)
    as (Hall & Hnd & Horder).
  assert (∀ g, g ∈ full → (existsb is_Task g = true ↔ ∃ n, n ∈ g ∧ is_Task n = true))
    as Hp.
  { intros g _. rewrite existsb_exists. split; intros (n & Hn & Ht); exists n;
      [by rewrite list_elem_of_In | by rewrite <- list_elem_of_In]. }
  assert (∀ t, t ∈ values tasks →
            ∀ g, g ∈ full → TaskN t ∈ g → existsb is_Task g = true) as Hkept.
  { intros t _ g Hg Ht. apply Hp; [done |]. by exists (TaskN t). }
  eexists. split; [done |]. split; [| split; [| split]].
  - intros g. rewrite elem_of_bool_filter. split.
    + intros [Hg Hex]. split; [done | by apply Hp].
    + intros [Hg Hex]. split; [done | by apply Hp].
  - intros g n Hg Hn. apply elem_of_bool_filter in Hg as [Hg Hex].
    apply Hp in Hex as (m & Hm & Htask); [| done].
    destruct (alternating_same_kind _ _ _ Halt Hg) as [Hdata | Htasks].
    { specialize (Hdata m Hm). by destruct m. }
    specialize (Htasks n Hn). destruct n as [dn | t]; [done |].
    exists t. split; [done |]. apply build_dag_task_node, Hall, elem_of_concat.
    by exists g.
  - intros k k' g g' t t' d Hk Hk' Hle Ht Ht' Hinput Houtput.
    pose proof (NoDup_concat_filter (fun nodes => existsb is_Task nodes) _ Hnd) as Hnd'.
    pose proof (generation_of_lookup _ _ _ _ Hnd' Hk Ht) as Hrank.
    pose proof (generation_of_lookup _ _ _ _ Hnd' Hk' Ht') as Hrank'.
    assert (t ∈ values tasks ∧ t' ∈ values tasks) as [Hin Hin'].
    { split; apply build_dag_task_node, Hall, elem_of_concat.
      - exists g. split; [| done].
        apply list_elem_of_lookup_2, elem_of_bool_filter in Hk. tauto.
      - exists g'. split; [| done].
        apply list_elem_of_lookup_2, elem_of_bool_filter in Hk'. tauto. }
    assert (edge (__build_dag tasks) (TaskN t') (DataNodeN d)) as Hout.
    { apply build_dag_edges. exists t'. split; [done |].
      apply task_edges_spec. right. by exists d. }
    assert (edge (__build_dag tasks) (DataNodeN d) (TaskN t)) as Hinp.
    { apply build_dag_edges. exists t. split; [done |].
      apply task_edges_spec. left. by exists d. }
    apply Horder in Hout. apply Horder in Hinp.
    assert (generation_of (TaskN t') full < generation_of (TaskN t) full) as Hlt by lia.
    apply (generation_of_filter (fun nodes => existsb is_Task nodes)) in Hlt;
      [lia | by apply Hkept].
  - intros t Hin. apply occurrences_NoDup; [by apply NoDup_concat_filter |].
    assert (TaskN t ∈ concat full) as Hnode by (by apply Hall, build_dag_task_node).
    apply elem_of_concat in Hnode as (g & Hg & Ht).
    apply elem_of_concat. exists g. split; [| done].
    apply elem_of_bool_filter. split; [done | by apply (Hkept t)].
Qed.

(** Membership in a list given by its elements. *)
Ltac solve_elem_of :=
  vm_compute;
  repeat first [apply list_elem_of_here | apply list_elem_of_further].

(** C5 at work: the pipeline of [T1] and an isolated task. *)
Lemma dag_holds_the_edges_of_each_task_witness :
  occurrences (DataNodeN Samples.dn_a, TaskN Samples.T1)
    (edges (__build_dag Samples.with_alone)) = 1
  ∧ occurrences (TaskN Samples.T_alone) (nodes (__build_dag Samples.with_alone)) = 1.
Proof.
  split.
  - assert (Samples.T1 ∈ values Samples.with_alone) as Hin by solve_elem_of.
    destruct (dag_holds_the_edges_of_each_task Samples.with_alone Samples.T1 Hin)
      as (Hinput & _).
    apply Hinput. solve_elem_of.
  - assert (Samples.T_alone ∈ values Samples.with_alone) as Hin by solve_elem_of.
    destruct (dag_holds_the_edges_of_each_task Samples.with_alone Samples.T_alone Hin)
      as (_ & _ & Halone & _).
    by destruct (Halone eq_refl eq_refl).
Defined.

(** C10 at work: two tasks configured as [t1]; the second one is kept. *)
Lemma last_task_of_a_config_id_is_kept_witness :
  dict_get "t1" (tasks_by_config_id [Samples.T1; Samples.T1_again; Samples.T2])
  = Some Samples.T1_again.
Proof.
  assert (∀ t', t' ∈ [Samples.T2] → config_id t' ≠ config_id Samples.T1_again) as Hlast.
  { intros t' Hin. apply list_elem_of_singleton in Hin as ->. vm_compute. discriminate. }
  exact (proj1 (last_task_of_a_config_id_is_kept [Samples.T1] Samples.T1_again
                  [Samples.T2] Hlast)).
Defined.

(** C4 at work: the chain [a -> T1 -> b -> T2 -> c] is consistent, the cycle
    of [T1] and [T_back] is not. *)
Lemma consistency_of_alternating_dags_witness :
  __is_consistent Samples.chain = Ok true
  ∧ __is_consistent Samples.cyclic = Ok false.
Proof.
  split.
  - apply (proj1 (consistency_of_alternating_dags Samples.chain)).
    + apply (acyclic_iff _ (build_dag_wf Samples.chain)). vm_compute. reflexivity.
    + vm_compute. repeat split; intros n Hn;
        repeat (apply elem_of_cons in Hn as [-> | Hn]; [reflexivity |]);
        by apply elem_of_nil in Hn.
  - apply (proj1 (proj2 (consistency_of_alternating_dags Samples.cyclic))).
    exists (DataNodeN Samples.dn_a).
    apply tc_l with (TaskN Samples.T1); [unfold edge; solve_elem_of |].
    apply tc_l with (DataNodeN Samples.dn_b); [unfold edge; solve_elem_of |].
    apply tc_l with (TaskN Samples.T_back); [unfold edge; solve_elem_of |].
    apply tc_once. unfold edge. solve_elem_of.
Defined.

(** C9 at work: the pipeline of [T1] and an isolated task. *)
Lemma isolated_task_makes_inconsistent_witness :
  __is_consistent Samples.with_alone = Ok false.
Proof.
  assert (Samples.T_alone ∈ values Samples.with_alone) as Hin by solve_elem_of.
  exact (proj1 (isolated_task_makes_inconsistent Samples.with_alone Samples.T_alone
                  Hin eq_refl eq_refl)).
Defined.

(** C3 as stated fails.  With a task without input next to [T1], the
    generations returned hold the data nodes [a] and [c]; with a cycle the
    call raises. *)
Lemma sorted_tasks_of_inconsistent_pipelines :
  get_sorted_tasks Samples.with_source
  = Ok [[DataNodeN Samples.dn_a; TaskN Samples.T_source];
        [TaskN Samples.T1; DataNodeN Samples.dn_c]]
  ∧ get_sorted_tasks Samples.cyclic = Raise "NetworkXUnfeasible".
Proof. vm_compute. split; reflexivity. Qed.

(** C3 at work on the chain: two generations, [T1] and then [T2]. *)
Lemma sorted_tasks_of_consistent_pipelines_witness :
  ∃ generations,
    get_sorted_tasks Samples.chain = Ok generations
    ∧ ∀ t, t ∈ values Samples.chain → occurrences (TaskN t) (concat generations) = 1.
Proof.
  assert (__is_consistent Samples.chain = Ok true) as Hok
    by (vm_compute; reflexivity).
  destruct (sorted_tasks_of_consistent_pipelines Samples.chain Hok)
    as (generations & Hget & _ & _ & _ & Hall).
  exists generations. split; [exact Hget | exact Hall].
Defined.

End PipelineProofs.

(** * More about the dispatcher *)

Module DispatcherMore.
Import Dispatcher DispatcherProofs.

Section More.
Context {Config : Type} `{!GlobalConfig Config}.
Implicit Types (d : Dispatcher Config) (job : Job) (ft : Future).



(** X2: a dispatch followed by the end of its worker gives back the slot
    and leaves no entry for the job: the counter and the number of futures
    in flight are what they were, and so is the table when the job was not
    dispatched before. *)
Theorem dispatch_then_finish job o d :
  ∃ d', worker_finishes (length (executor_futures d)) o (_dispatch job d) = Some d'
        ∧ _nb_available_workers d' = _nb_available_workers d
        ∧ length (in_flight d') = length (in_flight d)
        ∧ _dispatched_processes d' = delete (job_id job) (_dispatched_processes d)
        ∧ _is_dispatched (job_id job) d' = false
        ∧ (_is_dispatched (job_id job) d = false →
           _dispatched_processes d' = _dispatched_processes d).
Proof.
  assert (executor_futures (_dispatch job d) !! length (executor_futures d)
          = Some (dispatched_future job d)) as Hnew
    by (rewrite dispatch_unfold; simpl; apply lookup_snoc_last).
  eexists. split; [by apply (finish_unfold job) |].
  pose proof (in_flight_finished job _ _ o _ Hnew eq_refl) as Hcount.
  rewrite in_flight_dispatch in Hcount.
  assert (_dispatched_processes
            (finished job (length (executor_futures d)) (dispatched_future job d) o
               (_dispatch job d))
          = delete (job_id job) (_dispatched_processes d)) as Htable.
  { simpl. rewrite dispatch_unfold. simpl. by rewrite delete_insert_eq. }
  split; [simpl; rewrite dispatch_unfold; simpl; lia |].
  split; [lia |]. split; [done |]. split.
  - unfold _is_dispatched. rewrite Htable. apply bool_decide_eq_false.
    rewrite lookup_delete_eq. by intros [? ?].
  - intros Habsent. rewrite Htable. apply delete_id.
    apply bool_decide_eq_false in Habsent. by rewrite <- eq_None_not_Some in Habsent.
Qed.

(** X3: the table operations agree with each other: a registered job is
    dispatched, a removed job is not, no operation touches the entries of
    other jobs, and removing a job that is not in the table raises nothing
    and leaves the table as it is. *)
Theorem table_operations_agree jid handle d :
  _is_dispatched jid (_set_dispatched_processes jid handle d) = true
  ∧ _is_dispatched jid (_remove_dispatched_job jid d) = false
  ∧ (∀ jid', jid' ≠ jid →
       _is_dispatched jid' (_set_dispatched_processes jid handle d)
       = _is_dispatched jid' d
       ∧ _is_dispatched jid' (_remove_dispatched_job jid d) = _is_dispatched jid' d)
  ∧ (_is_dispatched jid d = false →
       _dispatched_processes (_remove_dispatched_job jid d) = _dispatched_processes d
       ∧ _dispatched_processes
           (_remove_dispatched_job jid (_set_dispatched_processes jid handle d))
         = _dispatched_processes d).
Proof.
  unfold _is_dispatched, _remove_dispatched_job, _pop_dispatched_process,
    _set_dispatched_processes. simpl.
  split; [apply bool_decide_eq_true; by rewrite lookup_insert_eq |].
  split; [apply bool_decide_eq_false; rewrite lookup_delete_eq; by intros [? ?] |].
  split.
  - intros jid' Hne. by rewrite lookup_insert_ne, lookup_delete_ne.
  - intros Habsent. apply bool_decide_eq_false in Habsent.
    rewrite <- eq_None_not_Some in Habsent.
    by rewrite delete_insert_eq, delete_id.
Qed.

(** X4: nothing stops a second dispatch of a job that is already
    dispatched.  The table then holds the second handle only; when the first
    worker finishes, the entry of the job is removed although the second
    future is still in flight, and the end of the second worker finds no
    entry to remove. *)
Theorem second_dispatch_overwrites_handle job o o' d :
  let h := length (executor_futures d) in
  let d2 := _dispatch job (_dispatch job d) in
  _dispatched_processes d2 !! job_id job = Some (S h)
  ∧ ∃ d3, worker_finishes h o d2 = Some d3
      ∧ _is_dispatched (job_id job) d3 = false
      ∧ (∃ ft, executor_futures d3 !! S h = Some ft ∧ fut_result ft = None
               ∧ req_job_id (request ft) = job_id job)
      ∧ ∃ d4, worker_finishes (S h) o' d3 = Some d4
          ∧ effects d4 = effects d3 ++
              [SlotReleased; HandleRemoved (job_id job) None; last_effect job o'].
Proof.
  intros h d2. assert (h ≠ S h) as Hne by (clear; lia).
  assert (length (executor_futures (_dispatch job d)) = S h) as Hlen.
  { rewrite dispatch_unfold. simpl. rewrite length_app. simpl. lia. }
  assert (executor_futures d2 !! h = Some (dispatched_future job d)) as Hfirst.
  { unfold d2. rewrite (dispatch_unfold job (_dispatch job d)). simpl.
    rewrite lookup_app_l by lia. rewrite dispatch_unfold. simpl.
    apply lookup_snoc_last. }
  assert (executor_futures d2 !! S h
          = Some (dispatched_future job (_dispatch job d))) as Hsecond.
  { unfold d2. rewrite (dispatch_unfold job (_dispatch job d)). simpl.
    rewrite <- Hlen. apply lookup_snoc_last. }
  assert (_dispatched_processes d2 !! job_id job = Some (S h)) as Htable.
  { unfold d2. rewrite (dispatch_unfold job (_dispatch job d)). simpl.
    by rewrite lookup_insert_eq, Hlen. }
  split; [done |].
  exists (finished job h (dispatched_future job d) o d2).
  split; [by apply finish_unfold |]. split.
  { unfold _is_dispatched. simpl. apply bool_decide_eq_false.
    rewrite lookup_delete_eq. by intros [? ?]. }
  split.
  { exists (dispatched_future job (_dispatch job d)). simpl.
    rewrite list_lookup_insert_ne by done. split; [exact Hsecond | done]. }
  eexists. split.
  { apply (finish_unfold job _ (dispatched_future job (_dispatch job d)));
      [| done | done]. simpl.
    rewrite list_lookup_insert_ne by done. exact Hsecond. }
  simpl. by rewrite lookup_delete_eq.
Qed.

(** X5: when the future ends with an exception of the pool, the slot is
    given back and the handle is removed, but [ft.result()] raises inside
    the callback: the record of the job is left as it was. *)
Theorem pool_failure_leaves_job_record cfg js d0 guard evs d h ft e :
  init cfg js = Some d0 ->
  run guard evs d0 = Some d ->
  executor_futures d !! h = Some ft -> fut_result ft = None ->
  ∃ d', worker_finishes h (Raised e) d = Some d'
        ∧ jobs d' = jobs d
        ∧ _nb_available_workers d' = (_nb_available_workers d + 1)%Z
        ∧ _is_dispatched (req_job_id (request ft)) d' = false
        ∧ last (effects d') = Some (CallbackFailed e).
Proof.
  intros Hinit Hrun Hft Hres.
  destruct (init_invariants _ _ _ Hinit) as (Hwf0 & Hslots0 & _).
  destruct (run_invariants _ _ _ _ Hrun Hwf0 Hslots0) as (Hwf & _ & _).
  destruct (Hwf _ _ Hft) as (job & Hcbs & Hjob).
  exists (finished job h ft (Raised e) d). split; [by apply finish_unfold |].
  split; [done |]. split; [done |]. split.
  - rewrite Hjob. unfold _is_dispatched. simpl. apply bool_decide_eq_false.
    rewrite lookup_delete_eq. by intros [? ?].
  - simpl. rewrite last_app. done.
Qed.

(** X6: under the gate of the driver loop, the end of any worker makes
    [_can_execute] true. *)
Theorem finished_worker_reopens_admission cfg js d0 evs d h ft o :
  init cfg js = Some d0 ->
  run capacity_gate evs d0 = Some d ->
  executor_futures d !! h = Some ft -> fut_result ft = None ->
  ∃ d', worker_finishes h o d = Some d' ∧ _can_execute d' = true.
Proof.
  intros Hinit Hrun Hft Hres.
  destruct (init_invariants _ _ _ Hinit) as (Hwf0 & Hslots0 & _).
  destruct (init_state _ _ _ Hinit) as (Hpos & Hnb & _ & _).
  destruct (run_invariants _ _ _ _ Hrun Hwf0 Hslots0) as (Hwf & _ & _).
  assert (0 <= _nb_available_workers d)%Z
    by (apply (run_capacity_nonneg _ _ _ Hrun Hwf0); lia).
  destruct (Hwf _ _ Hft) as (job & Hcbs & Hjob).
  exists (finished job h ft o d). split; [by apply finish_unfold |].
  apply can_execute_spec. simpl. lia.
Qed.



End More.

(** X5 at work: the pool breaks while jobs A and B are in flight. *)
Lemma pool_failure_leaves_job_record_witness :
  ∃ d', worker_finishes 0 (Raised "BrokenProcessPool") Samples.both_in_flight = Some d'
        ∧ jobs d' = jobs Samples.both_in_flight
        ∧ _nb_available_workers d'
          = (_nb_available_workers Samples.both_in_flight + 1)%Z
        ∧ _is_dispatched
            (req_job_id (request (dispatched_future Samples.job_A
                                    (Samples.fresh_dispatcher Samples.two_workers))))
            d' = false
        ∧ last (effects d') = Some (CallbackFailed "BrokenProcessPool").
Proof.
  apply (pool_failure_leaves_job_record Samples.two_workers ∅
           (Samples.fresh_dispatcher Samples.two_workers) unguarded
           Samples.dispatch_A_and_B);
    vm_compute; reflexivity.
Defined.

(** X6 at work: the single worker is taken by job A, and finishes. *)
Lemma finished_worker_reopens_admission_witness :
  ∃ d', worker_finishes 0 (Returned []) Samples.worker_taken = Some d'
        ∧ _can_execute d' = true.
Proof.
  apply (finished_worker_reopens_admission Samples.one_worker ∅
           (Samples.fresh_dispatcher Samples.one_worker)
           [Dispatch Samples.job_A] Samples.worker_taken 0
           (dispatched_future Samples.job_A (Samples.fresh_dispatcher Samples.one_worker)));
    vm_compute; reflexivity.
Defined.


End DispatcherMore.

(** * More about the generations *)

Module NxMore.
Import Nx NxProofs.

(** The first generation holds the free nodes, the second one the nodes
    that are free once the first one is removed, and every node of a later
    generation has a predecessor in the generation just before. *)
Lemma layers_heads E fuel remaining generations stuck :
  layers fuel E remaining = (generations, stuck) ->
  (∀ g0 rest, generations = g0 :: rest → g0 = zero_indegree E remaining)
  ∧ (∀ g0 g1 rest, generations = g0 :: g1 :: rest →
       g1 = zero_indegree E (list_difference remaining g0))
  ∧ (∀ k g g', generations !! k = Some g → generations !! S k = Some g' →
       ∀ v, v ∈ g' → ∃ u, u ∈ g ∧ (u, v) ∈ E).
Proof.
  revert fuel remaining generations stuck.
  apply (layers_ind E (fun remaining generations stuck =>
    (∀ g0 rest, generations = g0 :: rest → g0 = zero_indegree E remaining)
    ∧ (∀ g0 g1 rest, generations = g0 :: g1 :: rest →
         g1 = zero_indegree E (list_difference remaining g0))
    ∧ (∀ k g g', generations !! k = Some g → generations !! S k = Some g' →
         ∀ v, v ∈ g' → ∃ u, u ∈ g ∧ (u, v) ∈ E))).
  - intros remaining. split; [done |]. split; [done |]. by intros k g g' Hk.
  - intros remaining g gs stuck -> Hne (Hhead & _ & Hpred).
    split; [by intros g0 rest [= <- _] |]. split.
    + intros g0 g1 rest [= <- ->]. by eapply Hhead.
    + intros [| k] g g' Hk Hk' v Hv; simpl in *.
      * inversion Hk; subst g. destruct gs as [| g1 rest]; [done |].
        simpl in Hk'. inversion Hk'; subst g'.
        rewrite (Hhead g1 rest eq_refl) in Hv.
        apply zero_indegree_spec in Hv as [Hv Hfree].
        apply list_elem_of_difference in Hv as [Hv Hlater].
        rewrite zero_indegree_spec in Hlater.
        destruct (decide (blocked E remaining v)) as [Hb | Hb]; [| tauto].
        apply blocked_spec in Hb as (u & Hedge & Hu). exists u. split; [| done].
        destruct (decide (u ∈ zero_indegree E remaining)) as [? | Hu']; [done |].
        destruct Hfree. apply blocked_spec. exists u. split; [done |].
        by apply list_elem_of_difference.
      * by eapply Hpred.
Qed.

(** Where every edge joins a data node and a task, generations that follow
    each other hold nodes of different kinds. *)
Lemma alternating_from_first (E : list (node * node)) generations :
  (∀ u v, (u, v) ∈ E → is_DataNode u = negb (is_DataNode v)) ->
  (∀ k g g', generations !! k = Some g → generations !! S k = Some g' →
     ∀ v, v ∈ g' → ∃ u, u ∈ g ∧ (u, v) ∈ E) ->
  ∀ is_data_node,
    (∀ g0 rest, generations = g0 :: rest →
       ∀ n, n ∈ g0 → is_DataNode n = is_data_node) ->
    alternating is_data_node generations.
Proof.
  intros Hbip. induction generations as [| g gs IH]; intros Hpred b Hfirst; [done |].
  simpl. split.
  - intros n Hn. pose proof (Hfirst g gs eq_refl n Hn) as Hkind.
    destruct b, n; simpl in *; done.
  - apply IH.
    + intros k g1 g2 Hk Hk'. by apply (Hpred (S k)).
    + intros g1 rest -> v Hv.
      destruct (Hpred 0 g g1 eq_refl eq_refl v Hv) as (u & Hu & Hedge).
      rewrite <- (Hfirst g _ eq_refl u Hu). apply Hbip in Hedge.
      destruct (is_DataNode v); simpl in *; by rewrite Hedge.
Qed.

(** A sort that does not reach its end has met a cycle. *)
Lemma not_dag_has_cycle g :
  is_directed_acyclic_graph g = false -> has_cycle g.
Proof.
  unfold is_directed_acyclic_graph.
  destruct (topological_generations_layers g) as (gs & stuck & Hl & ->). simpl.
  destruct stuck as [| x stuck]; [done |]. intros _.
  apply (stuck_cycle (edges g) (x :: stuck)); [done |].
  by apply (layers_stuck _ _ _ _ _ Hl).
Qed.

(** No generation is empty. *)
Lemma layers_nonempty E fuel remaining generations stuck :
  layers fuel E remaining = (generations, stuck) ->
  ∀ g, g ∈ generations → g ≠ [].
Proof.
  revert fuel remaining generations stuck.
  apply (layers_ind E (fun remaining generations stuck =>
           ∀ g, g ∈ generations → g ≠ [])).
  - intros _ g Hg. by apply elem_of_nil in Hg.
  - intros remaining g gs stuck -> Hne IH g' Hg'.
    apply elem_of_cons in Hg' as [-> | Hg']; [done | by apply IH].
Qed.

End NxMore.

(** * More about pipelines *)

Module PipelineMore.
Import Nx NxProofs NxMore Pipeline PipelineProofs PipelineAccess.

(** Every edge of a pipeline graph joins a data node and a task. *)
Lemma build_dag_bipartite tasks u v :
  (u, v) ∈ edges (__build_dag tasks) -> is_DataNode u = negb (is_DataNode v).
Proof.
  intros He. apply build_dag_edges in He as (t & _ & He).
  by apply task_edges_spec in He as [(d & _ & [= -> ->]) | (d & _ & [= -> ->])].
Qed.

(** A task is free exactly when it has no input. *)
Lemma task_free_iff tasks t :
  TaskN t ∈ zero_indegree (edges (__build_dag tasks)) (nodes (__build_dag tasks))
  ↔ t ∈ values tasks ∧ input t = [].
Proof.
  rewrite zero_indegree_spec, blocked_spec, build_dag_task_node. split.
  - intros [Hin Hfree]. split; [done |].
    destruct (input t) as [| [name d] ins] eqn:Hinput; [done |]. destruct Hfree.
    assert ((DataNodeN d, TaskN t) ∈ edges (__build_dag tasks)) as Hedge.
    { apply build_dag_edges. exists t. split; [done |]. apply task_edges_spec.
      left. exists d. split; [| done]. rewrite Hinput. left. }
    exists (DataNodeN d). split; [done |].
    destruct (build_dag_wf tasks) as (_ & _ & Hends). by destruct (Hends _ Hedge).
  - intros [Hin Hno_input]. split; [done |]. intros (u & He & _).
    apply build_dag_edges in He as (t' & _ & He).
    apply task_edges_spec in He as [(d & Hd & Heq) | (d & Hd & Heq)];
      inversion Heq; subst. rewrite Hno_input in Hd. by apply elem_of_nil in Hd.
Qed.

(** The validation returns true exactly for the graphs without cycle in
    which every task has an input. *)
Lemma consistent_true_iff tasks :
  __is_consistent tasks = Ok true
  ↔ ¬ has_cycle (__build_dag tasks) ∧ ∀ t, t ∈ values tasks → input t ≠ [].
Proof.
  destruct (is_consistent_returns tasks) as (flag & Hflag & Htrue).
  rewrite Hflag. split.
  - intros [= ->]. destruct Htrue as [[Hacyclic Halt] _]; [done |].
    split; [done |]. intros t Hin Hno_input.
    assert (TaskN t ∈ zero_indegree (edges (__build_dag tasks))
                        (nodes (__build_dag tasks))) as Hfree
      by (by apply task_free_iff).
    destruct (topological_generations_first _ _ Hfree) as (later & stop & Htopo).
    rewrite Htopo in Halt. destruct Halt as [Hdata _].
    by specialize (Hdata _ Hfree).
  - intros [Hacyclic Hfed]. f_equal. apply Htrue. split; [done |].
    destruct (topological_generations_layers (__build_dag tasks))
      as (gs & stuck & Hl & ->). simpl.
    destruct (layers_heads _ _ _ _ _ Hl) as (Hhead & _ & Hpred).
    apply (alternating_from_first (edges (__build_dag tasks)));
      [apply build_dag_bipartite | done |].
    intros g0 rest Hgs n Hn. rewrite (Hhead _ _ Hgs) in Hn.
    destruct n as [d | t]; [done |].
    apply task_free_iff in Hn as [Hin Hno_input]. by destruct (Hfed t Hin).
Qed.

(** X8: the validation returns true exactly for the pipelines whose graph
    has no cycle and in which every task has at least one input; it returns
    false exactly when the graph has a cycle or some task has no input. *)
Theorem consistent_iff_acyclic_and_fed tasks :
  (__is_consistent tasks = Ok true
   ↔ ¬ has_cycle (__build_dag tasks) ∧ ∀ t, t ∈ values tasks → input t ≠ [])
  ∧ (__is_consistent tasks = Ok false
     ↔ has_cycle (__build_dag tasks) ∨ ∃ t, t ∈ values tasks ∧ input t = []).
Proof.
  pose proof (consistent_true_iff tasks) as Htrue. split; [done |].
  destruct (is_consistent_returns tasks) as (flag & Hflag & _).
  pose proof (acyclic_iff _ (build_dag_wf tasks)) as Hacyclic.
  split.
  - intros Hfalse.
    destruct (is_directed_acyclic_graph (__build_dag tasks)) eqn:Hdag.
    + right. destruct Hacyclic as [Hno _]. specialize (Hno eq_refl).
      destruct (decide (Exists (fun t => input t = []) (values tasks))) as [Hex | Hall].
      * apply Exists_exists in Hex as (t & Hin & Hno_input). by exists t.
      * assert (__is_consistent tasks = Ok true) as Hok; [| congruence].
        apply Htrue. split; [done |]. intros t Hin Hno_input. apply Hall.
        apply Exists_exists. by exists t.
    + left. by apply not_dag_has_cycle.
  - intros Hbad. rewrite Hflag. f_equal. destruct flag; [| done].
    destruct Htrue as [[Hno Hfed] _]; [done |].
    destruct Hbad as [Hcycle | (t & Hin & Hno_input)]; [done | by destruct (Hfed t)].
Qed.

(** X9: [get_sorted_tasks] raises [NetworkXUnfeasible] exactly when the
    graph of the tasks has a cycle, and returns otherwise. *)
Theorem sorted_tasks_raise_on_cycles_only tasks :
  (has_cycle (__build_dag tasks) →
   get_sorted_tasks tasks = Raise "NetworkXUnfeasible")
  ∧ (¬ has_cycle (__build_dag tasks) →
     ∃ generations, get_sorted_tasks tasks = Ok generations)
  ∧ (∀ e, get_sorted_tasks tasks = Raise e → has_cycle (__build_dag tasks)).
Proof.
  pose proof (acyclic_iff _ (build_dag_wf tasks)) as Hacyclic.
  unfold is_directed_acyclic_graph in Hacyclic. unfold get_sorted_tasks.
  destruct (topological_generations_layers (__build_dag tasks))
    as (gs & stuck & Hl & Htopo).
  rewrite Htopo in *. simpl in *.
  destruct stuck as [| x stuck]; simpl.
  - destruct Hacyclic as [Hno _]. specialize (Hno eq_refl).
    split; [done |]. split; [by eexists | done].
  - split; [done |]. split.
    + intros Hno. apply Hacyclic in Hno. done.
    + intros e _. apply (stuck_cycle (edges (__build_dag tasks)) (x :: stuck)); [done |].
      by apply (layers_stuck _ _ _ _ _ Hl).
Qed.

(** X10: for every pipeline without cycle, consistent or not, every
    returned generation holds a task of the pipeline, every task of the
    pipeline is in exactly one returned generation, and no task depends on
    the output of a task of its own or of a later generation. *)
Theorem sorted_tasks_of_acyclic_pipelines tasks :
  ¬ has_cycle (__build_dag tasks) ->
  ∃ generations,
    get_sorted_tasks tasks = Ok generations
    ∧ (∀ g, g ∈ generations → ∃ t, t ∈ values tasks ∧ TaskN t ∈ g)
    ∧ (∀ t, t ∈ values tasks → occurrences (TaskN t) (concat generations) = 1)
    ∧ (∀ k k' g g' t t' d,
         generations !! k = Some g → generations !! k' = Some g' → k ≤ k' →
         TaskN t ∈ g → TaskN t' ∈ g' →
         d ∈ values (input t) → d ∈ values (output t') → False).
Proof.
  intros Hacyclic.
  apply (acyclic_iff _ (build_dag_wf tasks)) in Hacyclic.
  unfold is_directed_acyclic_graph in Hacyclic. unfold get_sorted_tasks.
  destruct (topological_generations (__build_dag tasks)) as [full stop] eqn:Htopo.
  simpl in *. destruct stop as [e |]; [done |].
  destruct (topological_generations_complete _ _ (build_dag_wf tasks) Htopo)
    as (Hall & Hnd & Horder).
  assert (∀ g t, TaskN t ∈ g → existsb is_Task g = true) as Hkept.
  { intros g t Ht. apply existsb_exists. exists (TaskN t).
    split; [by apply list_elem_of_In | done]. }
  pose proof (NoDup_concat_filter (fun nodes => existsb is_Task nodes) _ Hnd) as Hnd'.
  eexists. split; [done |]. split; [| split].
  - intros g Hg. apply elem_of_bool_filter in Hg as [Hg Hex].
    apply existsb_exists in Hex as (n & Hn & Htask). apply list_elem_of_In in Hn.
    destruct n as [d | t]; [done |]. exists t. split; [| done].
    apply build_dag_task_node, Hall, elem_of_concat. by exists g.
  - intros t Hin. apply occurrences_NoDup; [done |].
    assert (TaskN t ∈ concat full) as Hnode by (by apply Hall, build_dag_task_node).
    apply elem_of_concat in Hnode as (g & Hg & Ht).
    apply elem_of_concat. exists g. split; [| done].
    apply elem_of_bool_filter. split; [done | by apply (Hkept g t)].
  - intros k k' g g' t t' d Hk Hk' Hle Ht Ht' Hinput Houtput.
    pose proof (generation_of_lookup _ _ _ _ Hnd' Hk Ht) as Hrank.
    pose proof (generation_of_lookup _ _ _ _ Hnd' Hk' Ht') as Hrank'.
    assert (t ∈ values tasks ∧ t' ∈ values tasks) as [Hin Hin'].
    { split; apply build_dag_task_node, Hall, elem_of_concat.
      - exists g. split; [| done].
        apply list_elem_of_lookup_2, elem_of_bool_filter in Hk. tauto.
      - exists g'. split; [| done].
        apply list_elem_of_lookup_2, elem_of_bool_filter in Hk'. tauto. }
    assert (edge (__build_dag tasks) (TaskN t') (DataNodeN d)) as Hout.
    { apply build_dag_edges. exists t'. split; [done |].
      apply task_edges_spec. right. by exists d. }
    assert (edge (__build_dag tasks) (DataNodeN d) (TaskN t)) as Hinp.
    { apply build_dag_edges. exists t. split; [done |].
      apply task_edges_spec. left. by exists d. }
    apply Horder in Hout. apply Horder in Hinp.
    assert (generation_of (TaskN t') full < generation_of (TaskN t) full) as Hlt by lia.
    apply (generation_of_filter (fun nodes => existsb is_Task nodes)) in Hlt; [lia |].
    intros g0 _ Ht0. by apply (Hkept g0 t').
Qed.

(** X11: in a pipeline that passes the validation, the first returned
    generation holds exactly the tasks that read only data nodes which no
    task of the pipeline writes. *)
Theorem first_generation_reads_unwritten_data tasks generations t :
  __is_consistent tasks = Ok true ->
  get_sorted_tasks tasks = Ok generations ->
  t ∈ values tasks ->
  (∃ g later, generations = g :: later ∧ TaskN t ∈ g)
  ↔ (∀ d t', d ∈ values (input t) → t' ∈ values tasks → d ∉ values (output t')).
Proof.
  intros Hok Hsorted Hin.
  destruct (is_consistent_returns tasks) as (flag & Hflag & Htrue).
  rewrite Hflag in Hok. inversion Hok; subst flag.
  destruct Htrue as [[Hacyclic Halt] _]; [done |].
  apply (acyclic_iff _ (build_dag_wf tasks)) in Hacyclic.
  unfold is_directed_acyclic_graph in Hacyclic. unfold get_sorted_tasks in Hsorted.
  destruct (topological_generations_layers (__build_dag tasks))
    as (full & stuck & Hl & Htopo).
  rewrite Htopo in *. simpl in *.
  destruct stuck as [| x stuck]; [| done]. inversion Hsorted as [Hgens]. clear Hsorted.
  destruct (topological_generations_complete _ _ (build_dag_wf tasks) Htopo)
    as (Hall & Hnd & _).
  destruct (layers_heads _ _ _ _ _ Hl) as (Hhead & Hsecond & _).
  pose proof (layers_nonempty _ _ _ _ _ Hl) as Hnonempty.
  destruct (build_dag_wf tasks) as (_ & _ & Hends).
  assert (TaskN t ∈ concat full) as Hnode by (by apply Hall, build_dag_task_node).
  destruct full as [| g0 [| g1 rest]].
  { by apply elem_of_nil in Hnode. }
  { simpl in Hnode. rewrite app_nil_r in Hnode. destruct Halt as [Hdata _].
    by specialize (Hdata _ Hnode). }
  destruct Halt as (Hdata & Htasks & _). simpl in Htasks.
  assert (existsb is_Task g0 = false) as Hdrop.
  { apply not_true_is_false. intros Hex.
    apply existsb_exists in Hex as (n & Hn & Htask). apply list_elem_of_In in Hn.
    specialize (Hdata n Hn). by destruct n. }
  assert (existsb is_Task g1 = true) as Hkeep.
  { assert (g1 ≠ []) as Hne1 by (apply Hnonempty; right; left).
    assert (∃ n, n ∈ g1) as [n Hn].
    { destruct g1 as [| n tl]; [done |]. exists n. left. }
    apply existsb_exists. exists n. split; [by apply list_elem_of_In |].
    by apply Htasks. }
  simpl. rewrite Hdrop, Hkeep.
  pose proof (Hhead _ _ eq_refl) as Hg0. pose proof (Hsecond _ _ _ eq_refl) as Hg1.
  assert (∀ d, DataNodeN d ∈ g0 ↔
               DataNodeN d ∈ nodes (__build_dag tasks)
               ∧ ∀ t', t' ∈ values tasks → d ∉ values (output t')) as Hsources.
  { intros d. rewrite Hg0, zero_indegree_spec, blocked_spec. split.
    - intros [Hd Hfree]. split; [done |]. intros t' Hin' Hout. apply Hfree.
      assert ((TaskN t', DataNodeN d) ∈ edges (__build_dag tasks)) as Hedge.
      { apply build_dag_edges. exists t'. split; [done |].
        apply task_edges_spec. right. by exists d. }
      exists (TaskN t'). split; [done |]. by destruct (Hends _ Hedge).
    - intros [Hd Hfree]. split; [done |]. intros (u & He & _).
      apply build_dag_edges in He as (t' & Hin' & He).
      apply task_edges_spec in He as [(d' & _ & Heq) | (d' & Hd' & Heq)];
        inversion Heq; subst. by apply (Hfree t'). }
  assert (TaskN t ∈ g1 ↔ ∀ d, d ∈ values (input t) → DataNodeN d ∈ g0) as Hfirst.
  { rewrite Hg1, zero_indegree_spec, blocked_spec, list_elem_of_difference. split.
    - intros [_ Hfree] d Hd.
      assert ((DataNodeN d, TaskN t) ∈ edges (__build_dag tasks)) as Hedge.
      { apply build_dag_edges. exists t. split; [done |].
        apply task_edges_spec. left. by exists d. }
      destruct (decide (DataNodeN d ∈ g0)) as [? | Hlater]; [done |].
      destruct Hfree. exists (DataNodeN d). split; [done |].
      apply list_elem_of_difference. split; [| done]. by destruct (Hends _ Hedge).
    - intros Hread. split.
      + split; [by apply build_dag_task_node |]. intros Ht0.
        by specialize (Hdata _ Ht0).
      + intros (u & He & Hu). apply list_elem_of_difference in Hu as [_ Hu].
        apply build_dag_edges in He as (t' & _ & He).
        apply task_edges_spec in He as [(d & Hd & Heq) | (d & Hd & Heq)];
          inversion Heq; subst. by apply Hu, Hread. }
  split.
  - intros (g & later & Hgens' & Ht). inversion Hgens'; subst g later.
    intros d t' Hd Hin'. pose proof (proj1 Hfirst Ht d Hd) as Hsrc.
    by apply (proj1 (Hsources d) Hsrc).
  - intros Hunwritten. exists g1, (List.filter (fun nodes => existsb is_Task nodes) rest).
    split; [done |]. apply Hfirst. intros d Hd. apply Hsources. split.
    + apply build_dag_nodes. exists t. split; [done |]. unfold task_nodes.
      right. apply list_elem_of_fmap. exists d. split; [done |].
      apply elem_of_app. by left.
    + intros t' Hin'. by apply Hunwritten.
Qed.

(** *** The order of the tasks *)

Lemma has_cycle_same_tasks tasks tasks' :
  (∀ t, t ∈ values tasks ↔ t ∈ values tasks') ->
  has_cycle (__build_dag tasks) -> has_cycle (__build_dag tasks').
Proof.
  intros Hsame [v Hv]. exists v.
  assert (∀ x y, edge (__build_dag tasks) x y → edge (__build_dag tasks') x y) as Hsub.
  { intros x y He. apply build_dag_edges in He as (t & Hin & He).
    apply build_dag_edges. exists t. split; [by apply Hsame | done]. }
  clear Hsame.
  assert (∀ x y, tc (edge (__build_dag tasks)) x y →
                 tc (edge (__build_dag tasks')) x y) as Hreach; [| by apply Hreach].
  intros x y Hxy. induction Hxy as [x y He | x y z He _ IH].
  - apply tc_once. by apply Hsub.
  - eapply tc_l; [by apply Hsub | done].
Qed.

(** X18: the validation depends on the set of the tasks only, not on the
    order in which the dictionary holds them. *)
Theorem validation_ignores_task_order tasks tasks' :
  (∀ t, t ∈ values tasks ↔ t ∈ values tasks') ->
  __is_consistent tasks = __is_consistent tasks'.
Proof.
  intros Hsame.
  destruct (is_consistent_returns tasks) as (flag & Hflag & _).
  destruct (is_consistent_returns tasks') as (flag' & Hflag' & _).
  pose proof (consistent_true_iff tasks) as Htrue.
  pose proof (consistent_true_iff tasks') as Htrue'.
  rewrite Hflag, Hflag' in *. f_equal.
  assert (Ok flag = Ok true ↔ Ok flag' = Ok true) as Hiff.
  { rewrite Htrue, Htrue'. split; intros [Hno Hfed]; split.
    - intros Hcycle. apply Hno. eapply has_cycle_same_tasks; [| done].
      intros t. symmetry. apply Hsame.
    - intros t Hin. apply Hfed. by apply Hsame.
    - intros Hcycle. apply Hno. by eapply has_cycle_same_tasks.
    - intros t Hin. apply Hfed. by apply Hsame. }
  destruct flag, flag'; try done.
  - destruct Hiff as [Hiff _]. by specialize (Hiff eq_refl).
  - destruct Hiff as [_ Hiff]. by specialize (Hiff eq_refl).
Qed.

(** *** Dictionaries *)

Lemma dict_get_Some_elem {V} (k : string) (v : V) d :
  dict_get k d = Some v -> (k, v) ∈ d.
Proof.
  induction d as [| [k0 v0] d IH]; simpl; [done |].
  case_decide as Hk; [intros [= ->]; subst; left | intros Hget; right; by apply IH].
Qed.

Lemma dict_get_None {V} (k : string) (d : list (string * V)) :
  dict_get k d = None ↔ k ∉ (d.*1).
Proof.
  induction d as [| [k0 v0] d IH]; simpl.
  - split; [intros _; apply not_elem_of_nil | done].
  - rewrite not_elem_of_cons. case_decide as Hk; [split; [done | tauto] |].
    rewrite IH. tauto.
Qed.

Lemma dict_set_fresh {V} (k : string) (v : V) d :
  k ∉ (d.*1) -> dict_set k v d = d ++ [(k, v)].
Proof.
  induction d as [| [k0 v0] d IH]; simpl; [done |]. intros Hfresh.
  apply not_elem_of_cons in Hfresh as [Hne Hfresh].
  rewrite decide_False by done. by rewrite IH.
Qed.

Lemma tasks_by_config_id_distinct ts :
  NoDup (config_id <$> ts) ->
  tasks_by_config_id ts = (fun t => (config_id t, t)) <$> ts.
Proof.
  unfold tasks_by_config_id.
  cut (∀ d : list (string * Task),
         NoDup (d.*1 ++ (config_id <$> ts)) →
         foldl (fun d task => dict_set (config_id task) task d) d ts
         = d ++ ((fun t => (config_id t, t)) <$> ts)).
  { intros Hcut Hnd. by apply (Hcut []). }
  induction ts as [| t ts IH]; intros d Hnd; simpl.
  - by rewrite app_nil_r.
  - simpl in Hnd. rewrite dict_set_fresh.
    + rewrite IH; [by rewrite <- app_assoc |].
      rewrite fmap_app. simpl. by rewrite <- app_assoc.
    + apply NoDup_app in Hnd as (_ & Hdisj & _). intros Hin.
      apply (Hdisj _ Hin). left.
Qed.

(** X12: the pipeline keeps all the tasks it is given, in their order,
    exactly when their configuration ids are pairwise different; then every
    task is found under its configuration id and the persisted model lists
    the ids of all the tasks in the order of the list. *)
Theorem all_tasks_kept_iff_config_ids_differ ts :
  (values (tasks_by_config_id ts) = ts ↔ NoDup (config_id <$> ts))
  ∧ (NoDup (config_id <$> ts) →
       (∀ t, t ∈ ts → dict_get (config_id t) (tasks_by_config_id ts) = Some t)
       ∧ ∀ (V S : Type) (properties : list (string * V)) (subscribers : S) p,
           model_tasks (to_model properties subscribers (set_tasks ts p))
           = task_id <$> ts).
Proof.
  assert (NoDup (config_id <$> ts) → values (tasks_by_config_id ts) = ts) as Hkept.
  { intros Hnd. rewrite (tasks_by_config_id_distinct _ Hnd). unfold values.
    rewrite <- list_fmap_compose. simpl. apply list_fmap_id. }
  split; [split; [| done] |].
  - intros Hvalues. destruct (tasks_by_config_id_keys ts) as [Hnd Hkeys].
    assert ((tasks_by_config_id ts).*1 = config_id <$> values (tasks_by_config_id ts))
      as Heq.
    { unfold values. rewrite <- list_fmap_compose. apply list_fmap_ext.
      intros i [k t] Hlook. simpl. apply Hkeys. by eapply list_elem_of_lookup_2. }
    by rewrite Heq, Hvalues in Hnd.
  - intros Hnd. split.
    + intros t Hin. destruct (tasks_by_config_id_keys ts) as [Hnd' _].
      apply dict_elem_get; [done |]. rewrite (tasks_by_config_id_distinct _ Hnd).
      apply list_elem_of_fmap. by exists t.
    + intros V S properties subscribers p. simpl. by rewrite Hkept.
Qed.

(** *** The nodes of the graph *)

(** X13: the nodes of the graph are the tasks of the pipeline and the data
    nodes that they read or write, each once, and every data node of the
    graph is an end point of an edge. *)
Theorem dag_holds_tasks_and_their_data_nodes tasks :
  (∀ t, TaskN t ∈ nodes (__build_dag tasks) ↔ t ∈ values tasks)
  ∧ (∀ d, DataNodeN d ∈ nodes (__build_dag tasks) ↔
          ∃ t, t ∈ values tasks ∧ (d ∈ values (input t) ∨ d ∈ values (output t)))
  ∧ (∀ n, n ∈ nodes (__build_dag tasks) → occurrences n (nodes (__build_dag tasks)) = 1)
  ∧ (∀ d, DataNodeN d ∈ nodes (__build_dag tasks) →
          ∃ e, e ∈ edges (__build_dag tasks)
               ∧ (e.1 = DataNodeN d ∨ e.2 = DataNodeN d)).
Proof.
  assert (∀ d, DataNodeN d ∈ nodes (__build_dag tasks) ↔
               ∃ t, t ∈ values tasks ∧ (d ∈ values (input t) ∨ d ∈ values (output t)))
    as Hdata.
  { intros d. rewrite build_dag_nodes. unfold task_nodes. split.
    - intros (t & Hin & Hd). exists t. split; [done |].
      apply elem_of_cons in Hd as [Heq | Hd]; [done |].
      apply list_elem_of_fmap in Hd as (d' & [= ->] & Hd').
      by apply elem_of_app in Hd'.
    - intros (t & Hin & Hd). exists t. split; [done |]. right.
      apply list_elem_of_fmap. exists d. split; [done |]. by apply elem_of_app. }
  split; [apply build_dag_task_node |]. split; [done |]. split.
  - intros n Hn. destruct (build_dag_wf tasks) as (Hnd & _). by apply occurrences_NoDup.
  - intros d Hd. apply Hdata in Hd as (t & Hin & [Hd | Hd]).
    + exists (DataNodeN d, TaskN t). split; [| by left].
      apply build_dag_edges. exists t. split; [done |].
      apply task_edges_spec. left. by exists d.
    + exists (TaskN t, DataNodeN d). split; [| by right].
      apply build_dag_edges. exists t. split; [done |].
      apply task_edges_spec. right. by exists d.
Qed.

(** *** Attribute lookup *)

Lemma find_data_node_None name ts :
  find_data_node name ts = None
  ↔ (∀ t, t ∈ ts → (name ∉ names (input t)) ∧ (name ∉ names (output t))).
Proof.
  unfold names. induction ts as [| t ts IH]; simpl.
  - split; [| done]. intros _ t Ht. by apply elem_of_nil in Ht.
  - destruct (dict_get name (input t)) as [d |] eqn:Hinput.
    { split; [done |]. intros Hall. destruct (Hall t) as [Habsent _]; [left |].
      apply dict_get_None in Habsent. congruence. }
    destruct (dict_get name (output t)) as [d |] eqn:Houtput.
    { split; [done |]. intros Hall. destruct (Hall t) as [_ Habsent]; [left |].
      apply dict_get_None in Habsent. congruence. }
    rewrite IH. apply dict_get_None in Hinput, Houtput. split.
    + intros Hall t' Ht'. apply elem_of_cons in Ht' as [-> | Ht']; [done | by apply Hall].
    + intros Hall t' Ht'. apply Hall. by right.
Qed.

Lemma find_data_node_Some name ts d :
  find_data_node name ts = Some d ->
  ∃ t, t ∈ ts ∧ ((name, d) ∈ input t ∨ (name, d) ∈ output t).
Proof.
  induction ts as [| t ts IH]; simpl; [done |].
  destruct (dict_get name (input t)) as [d' |] eqn:Hinput.
  { intros [= ->]. exists t. split; [left |]. left. by apply dict_get_Some_elem. }
  destruct (dict_get name (output t)) as [d' |] eqn:Houtput.
  { intros [= ->]. exists t. split; [left |]. right. by apply dict_get_Some_elem. }
  intros Hfind. destruct (IH Hfind) as (t' & Ht' & Hd). exists t'. split; [by right | done].
Qed.

(** X14: for a name that [_validate_id] accepts, [__getattr__] raises
    exactly when the name is neither a property, nor a key of the tasks, nor
    the name of an input or an output of a task; what it raises then is the
    [AttributeError] of the pipeline.  A name that [_validate_id] refuses
    raises the exception of [_validate_id]. *)
Theorem getattr_raises_for_unknown_names_only {V : Type}
    (_validate_id : string -> result string) (properties : list (string * V))
    p attribute_name :
  (∀ protected_attribute_name,
     _validate_id attribute_name = Ok protected_attribute_name →
     ((∃ e, __getattr__ _validate_id properties p attribute_name = Raise e)
      ↔ ((protected_attribute_name ∉ properties.*1)
         ∧ (protected_attribute_name ∉ (_tasks p).*1)
         ∧ (∀ t, t ∈ values (_tasks p) →
              (protected_attribute_name ∉ names (input t))
              ∧ (protected_attribute_name ∉ names (output t)))))
     ∧ (∀ e, __getattr__ _validate_id properties p attribute_name = Raise e →
             e = AttributeError attribute_name (pipeline_id p)))
  ∧ (∀ e, _validate_id attribute_name = Raise e →
          __getattr__ _validate_id properties p attribute_name = Raise e).
Proof.
  unfold __getattr__. split; [| by intros e ->].
  intros name ->.
  destruct (dict_get name properties) as [v |] eqn:Hprop.
  { split; [| done]. split; [by intros [e ?] |]. intros (Habsent & _).
    apply dict_get_None in Habsent. congruence. }
  destruct (dict_get name (_tasks p)) as [t |] eqn:Htask.
  { split; [| done]. split; [by intros [e ?] |]. intros (_ & Habsent & _).
    apply dict_get_None in Habsent. congruence. }
  destruct (find_data_node name (values (_tasks p))) as [d |] eqn:Hfind.
  { split; [| done]. split; [by intros [e ?] |]. intros (_ & _ & Habsent).
    apply find_data_node_None in Habsent. congruence. }
  split; [| by intros e [= <-]]. split; [| by eexists].
  intros _. split; [by apply dict_get_None |]. split; [by apply dict_get_None |].
  by apply find_data_node_None.
Qed.

(** X15: what [__getattr__] returns is part of the pipeline: a task it
    returns is a task of the pipeline configured under the name asked for,
    and a data node it returns is read or written under that name by a task
    of the pipeline; both are nodes of the graph.  A task of the pipeline is
    returned under its configuration id unless a property has that name. *)
Theorem getattr_returns_parts_of_the_pipeline {V : Type}
    (_validate_id : string -> result string) (properties : list (string * V))
    ts p attribute_name protected_attribute_name :
  _tasks p = tasks_by_config_id ts ->
  _validate_id attribute_name = Ok protected_attribute_name ->
  (∀ t, __getattr__ _validate_id properties p attribute_name = Ok (TaskAttribute t) →
        t ∈ values (_tasks p) ∧ config_id t = protected_attribute_name
        ∧ TaskN t ∈ nodes (__build_dag (_tasks p)))
  ∧ (∀ d, __getattr__ _validate_id properties p attribute_name
          = Ok (DataNodeAttribute d) →
          (∃ t, t ∈ values (_tasks p)
                ∧ ((protected_attribute_name, d) ∈ input t
                   ∨ (protected_attribute_name, d) ∈ output t))
          ∧ DataNodeN d ∈ nodes (__build_dag (_tasks p)))
  ∧ (∀ t, t ∈ values (_tasks p) → config_id t = protected_attribute_name →
          protected_attribute_name ∉ (properties.*1) →
          __getattr__ _validate_id properties p attribute_name = Ok (TaskAttribute t)).
Proof.
  intros Htasks Hvalid. unfold __getattr__. rewrite Hvalid, Htasks.
  destruct (tasks_by_config_id_keys ts) as [Hnd Hkeys].
  split; [| split].
  - intros t Hget.
    destruct (dict_get protected_attribute_name properties); [done |].
    destruct (dict_get protected_attribute_name (tasks_by_config_id ts))
      as [t' |] eqn:Htask.
    + inversion Hget; subst t'. apply dict_get_Some_elem in Htask.
      assert (t ∈ values (tasks_by_config_id ts)) as Hin.
      { apply list_elem_of_fmap. by exists (protected_attribute_name, t). }
      split; [done |]. split; [symmetry; by apply Hkeys |].
      by apply build_dag_task_node.
    + by destruct (find_data_node _ _).
  - intros d Hget.
    destruct (dict_get protected_attribute_name properties); [done |].
    destruct (dict_get protected_attribute_name (tasks_by_config_id ts)); [done |].
    destruct (find_data_node protected_attribute_name
                (values (tasks_by_config_id ts))) as [d' |] eqn:Hfind; [| done].
    inversion Hget; subst d'.
    destruct (find_data_node_Some _ _ _ Hfind) as (t & Hin & Hd).
    split; [by exists t |].
    apply build_dag_nodes. exists t. split; [done |]. unfold task_nodes. right.
    apply list_elem_of_fmap. exists d. split; [done |]. apply elem_of_app.
    destruct Hd as [Hd | Hd]; [left | right];
      apply list_elem_of_fmap; by exists (protected_attribute_name, d).
  - intros t Hin Hcid Habsent. apply dict_get_None in Habsent. rewrite Habsent.
    apply list_elem_of_fmap in Hin as ([k t'] & -> & Hin). simpl in *.
    pose proof (Hkeys _ _ Hin) as ->. apply dict_elem_get in Hin; [| done].
    by rewrite <- Hcid, Hin.
Qed.

(** *** Identifiers *)

Lemma string_app_inv_head (a b b' : string) : a +:+ b = a +:+ b' -> b = b'.
Proof. induction a as [| c a IH]; simpl; [done |]. intros [= Heq]. by apply IH. Qed.

Lemma string_length_app (a b : string) :
  String.length (a +:+ b) = String.length a + String.length b.
Proof. induction a as [| c a IH]; simpl; [done |]. by rewrite IH. Qed.

Lemma string_app_inj_length (a a' b b' : string) :
  a +:+ b = a' +:+ b' -> String.length b = String.length b' -> a = a' ∧ b = b'.
Proof.
  revert a'. induction a as [| c a IH]; intros [| c' a'] Heq Hlen; simpl in *.
  - done.
  - apply (f_equal String.length) in Heq.
    rewrite !string_length_app in Heq. simpl in Heq. lia.
  - apply (f_equal String.length) in Heq.
    rewrite !string_length_app in Heq. simpl in Heq. lia.
  - inversion Heq; subst. destruct (IH a') as [-> ->]; done.
Qed.

(** X16: an id made by [new_id] starts with [PIPELINE_]; two of them, made
    with uuids of the same length, are equal only for the same validated
    configuration id and the same uuid.  Two pipelines constructed without
    an id from the same configuration id are equal, in the sense of
    [__eq__], exactly when they drew the same uuid, whatever their tasks. *)
Theorem new_ids_are_told_apart_by_uuid (_validate_id : string -> result string)
    uuid uuid' :
  (∀ cid cid' i i',
     new_id _validate_id uuid cid = Ok i → new_id _validate_id uuid' cid' = Ok i' →
     (∃ suffix, i = "PIPELINE_" +:+ suffix)
     ∧ (String.length uuid = String.length uuid' →
        (i = i' ↔ _validate_id cid = _validate_id cid' ∧ uuid = uuid')))
  ∧ (∀ cid ts ts' parent parent' p p',
       __init__ _validate_id uuid cid ts None parent = Ok p →
       __init__ _validate_id uuid' cid ts' None parent' = Ok p' →
       (__eq__ p p' = true ↔ uuid = uuid')).
Proof.
  split.
  - intros cid cid' i i'. unfold new_id.
    destruct (_validate_id cid) as [c | e]; [| done].
    destruct (_validate_id cid') as [c' | e']; [| done].
    intros [= <-] [= <-]. split; [by eexists |]. intros Hlen. split.
    + intros Heq. do 2 apply string_app_inv_head in Heq.
      destruct (string_app_inj_length _ _ _ _ Heq) as [-> Hu];
        [by rewrite !string_length_app, Hlen |].
      by apply string_app_inv_head in Hu as ->.
    + by intros [[= ->] ->].
  - intros cid ts ts' parent parent' p p'. unfold __init__, new_id, __eq__.
    destruct (_validate_id cid) as [c | e]; [| done].
    destruct (_validate_id c) as [c' | e]; [| done].
    destruct (__is_consistent (tasks_by_config_id ts)) as [flag | e]; [| done].
    destruct (__is_consistent (tasks_by_config_id ts')) as [flag' | e]; [| done].
    intros [= <-] [= <-]. simpl. rewrite bool_decide_eq_true. split.
    + intros Heq. by do 4 apply string_app_inv_head in Heq.
    + by intros ->.
Qed.

(** *** The flag after the setter *)

Lemma unfed_task_inconsistent tasks t :
  t ∈ values tasks -> input t = [] -> __is_consistent tasks = Ok false.
Proof.
  intros Hin Hno_input.
  assert (TaskN t ∈ zero_indegree (edges (__build_dag tasks))
                      (nodes (__build_dag tasks))) as Hfree
    by (by apply task_free_iff).
  destruct (topological_generations_first _ _ Hfree) as (later & stop & Htopo).
  unfold __is_consistent.
  destruct (is_directed_acyclic_graph (__build_dag tasks)); [| done]. simpl.
  rewrite Htopo. simpl.
  assert (existsb (wrong_kind true)
            (zero_indegree (edges (__build_dag tasks)) (nodes (__build_dag tasks)))
          = true) as ->; [| done].
  apply existsb_exists. exists (TaskN t). split; [| done]. by apply list_elem_of_In.
Qed.

(** X17: the setter of [tasks] does not validate again: the flag stays
    what the constructor computed, also when the new tasks hold a task
    without input, for which the validation returns false. *)
Theorem setter_keeps_the_flag val p t :
  t ∈ values (tasks_by_config_id val) -> input t = [] ->
  is_consistent (set_tasks val p) = is_consistent p
  ∧ __is_consistent (_tasks (set_tasks val p)) = Ok false.
Proof.
  intros Hin Hno_input. split; [done |]. simpl. by eapply unfed_task_inconsistent.
Qed.

(** X10 at work: [T1] next to a task without input, a pipeline without
    cycle that does not pass the validation. *)
Lemma sorted_tasks_of_acyclic_pipelines_witness :
  ∃ generations,
    get_sorted_tasks Samples.with_source = Ok generations
    ∧ ∀ t, t ∈ values Samples.with_source →
        occurrences (TaskN t) (concat generations) = 1.
Proof.
  assert (¬ has_cycle (__build_dag Samples.with_source)) as Hacyclic.
  { apply (acyclic_iff _ (build_dag_wf Samples.with_source)). vm_compute. reflexivity. }
  destruct (sorted_tasks_of_acyclic_pipelines Samples.with_source Hacyclic)
    as (generations & Hget & _ & Hall & _).
  exists generations. split; [exact Hget | exact Hall].
Defined.

(** X11 at work: in the chain, [T1] reads [a], which no task writes. *)
Lemma first_generation_reads_unwritten_data_witness :
  (∃ g later, [[TaskN Samples.T1]; [TaskN Samples.T2]] = g :: later
              ∧ TaskN Samples.T1 ∈ g)
  ↔ (∀ d t', d ∈ values (input Samples.T1) → t' ∈ values Samples.chain →
             d ∉ values (output t')).
Proof.
  apply (first_generation_reads_unwritten_data Samples.chain).
  - vm_compute. reflexivity.
  - vm_compute. reflexivity.
  - solve_elem_of.
Defined.

(** X15 at work: the task configured as [t1] is an attribute of the chain. *)
Lemma getattr_returns_parts_of_the_pipeline_witness :
  __getattr__ Samples.accept_id ([] : list (string * string))
    MoreSamples.chain_pipeline "t1"
  = Ok (TaskAttribute Samples.T1).
Proof.
  assert (_tasks MoreSamples.chain_pipeline
          = tasks_by_config_id [Samples.T1; Samples.T2]) as Htasks by reflexivity.
  assert (Samples.accept_id "t1" = Ok "t1"%string) as Hvalid by reflexivity.
  destruct (getattr_returns_parts_of_the_pipeline Samples.accept_id
              ([] : list (string * string)) _ _ _ _ Htasks Hvalid) as (_ & _ & Htask).
  apply Htask; [solve_elem_of | reflexivity | apply not_elem_of_nil].
Defined.

(** X17 at work: the chain is given an isolated task by the setter. *)
Lemma setter_keeps_the_flag_witness :
  is_consistent (set_tasks [Samples.T1; Samples.T_alone] MoreSamples.chain_pipeline)
  = is_consistent MoreSamples.chain_pipeline
  ∧ __is_consistent
      (_tasks (set_tasks [Samples.T1; Samples.T_alone] MoreSamples.chain_pipeline))
    = Ok false.
Proof.
  apply (setter_keeps_the_flag [Samples.T1; Samples.T_alone]
           MoreSamples.chain_pipeline Samples.T_alone);
    [solve_elem_of | reflexivity].
Defined.

(** X18 at work: the chain, given as [T1, T2] and as [T2, T1]. *)
Lemma validation_ignores_task_order_witness :
  __is_consistent (tasks_by_config_id [Samples.T1; Samples.T2])
  = __is_consistent (tasks_by_config_id [Samples.T2; Samples.T1]).
Proof.
  apply validation_ignores_task_order. intros t.
  assert (values (tasks_by_config_id [Samples.T1; Samples.T2])
          = [Samples.T1; Samples.T2]) as -> by (vm_compute; reflexivity).
  assert (values (tasks_by_config_id [Samples.T2; Samples.T1])
          = [Samples.T2; Samples.T1]) as -> by (vm_compute; reflexivity).
  rewrite !elem_of_cons. tauto.
Defined.

End PipelineMore.
